(** * length_match.py: a shallow embedding and its checked properties

    The script is Python 2 ([len(x)/2] is used as a list index, so [/] on
    integers is floor division).  Python integers are unbounded and are
    modelled by [Z]; strings are byte strings, modelled by [string] and, where
    the regular expression walks over them, by [list ascii].  A Python call
    either returns a value or raises, which is the [outcome] type below.

    Floating point appears at two places of the script.
    - [get_tolerance] reads a decimal numeral with [float], multiplies it by
      [1e6] and truncates with [int].  Decimal fractions are not binary
      fractions, so rounding matters for everyday labels; those three
      operations are modelled with IEEE-754 binary64 round-to-nearest-even,
      computed on exact rationals ([b64_round]).
    - [median] divides the sum of two lengths by [2.0], and [nm_to_mm]
      divides a length by [1e6] for printing.  [median_float] models the
      first in binary64: sums are rounded from 2^53 on, and a sum that has
      no float raises [OverflowError].  [test_netclass] is modelled in
      exact arithmetic, with [median] and [nm_to_mm] as exact rationals:
      its sort, minimum, maximum, variance and verdict are integer
      operations, the median it compares with is exact for lengths below
      2^52 ([median_float_exact]; 2^52 nm is about 4500 km of copper), and
      the numbers it prints are recorded as the exact quotients where the
      script hands their nearest floats to ["%.2f"].  The [OverflowError]
      of converting a length of about 2^1024 nm is outside
      [test_netclass]; statements on what is printed or raised carry the
      bound they need. *)

From Stdlib Require Import ZArith QArith Qcanon Qabs Qround Ascii String Lia Lqa.
From stdpp Require Import base list strings sorting gmap.

Local Open Scope Z_scope.

(** ** Outcomes of a Python call *)

Inductive exn : Type :=
| ValueError
| OverflowError
| IndexError.

Inductive outcome (A : Type) : Type :=
| Returns (a : A)
| Raises (e : exn).
Arguments Returns {A} a.
Arguments Raises {A} e.

#[global] Instance outcome_ret : MRet outcome := fun A a => Returns a.

#[global] Instance outcome_bind : MBind outcome := fun A B f c =>
  match c with
  | Returns a => f a
  | Raises e => Raises e
  end.

(** ** The regular expression engine, as far as the script uses it

    [re.search] tries every start position from the left and, at each one,
    explores the pattern by backtracking: the first alternative of [|]
    first, the longest repetition of [+] first.  [rmatch] is that
    exploration in continuation-passing style; the continuation receives
    what is left of the subject and the groups captured so far. *)

Module Re.

Inductive regex : Type :=
| Bol                                  (* ^ *)
| Eol                                  (* $ *)
| Chr (c : ascii)                      (* a literal character *)
| PlusSet (f : ascii → bool)           (* [...]+ , greedy *)
| Seq (r1 r2 : regex)
| Alt (r1 r2 : regex)                  (* r1|r2 *)
| Group (r : regex).                   (* (r) *)

(** Without [re.MULTILINE], [$] matches at the very end of the subject and
    also just before a newline that is its last character. *)
Definition at_eol (s : list ascii) : bool :=
  match s with
  | [] => true
  | [c] => bool_decide (c = "010"%char)
  | _ => false
  end.

Definition cont : Type :=
  bool → list ascii → list (list ascii) → option (list (list ascii)).

(** Zero or more characters of the class [f], longest run first. *)
Fixpoint greedy (f : ascii → bool) (s : list ascii)
    (k : list ascii → option (list (list ascii))) : option (list (list ascii)) :=
  match s with
  | c :: s' =>
      if f c then
        match greedy f s' k with
        | Some m => Some m
        | None => k s
        end
      else k s
  | [] => k s
  end.

(** [bos] tells whether the position is the start of the subject, [s] is the
    rest of the subject from the position on. *)
Fixpoint rmatch (r : regex) (bos : bool) (s : list ascii)
    (caps : list (list ascii)) (k : cont) : option (list (list ascii)) :=
  match r with
  | Bol => if bos then k bos s caps else None
  | Eol => if at_eol s then k bos s caps else None
  | Chr c =>
      match s with
      | c' :: s' => if bool_decide (c' = c) then k false s' caps else None
      | [] => None
      end
  | PlusSet f =>
      match s with
      | c :: s' => if f c then greedy f s' (fun rest => k false rest caps) else None
      | [] => None
      end
  | Seq r1 r2 => rmatch r1 bos s caps (fun b s' caps' => rmatch r2 b s' caps' k)
  | Alt r1 r2 =>
      match rmatch r1 bos s caps k with
      | Some m => Some m
      | None => rmatch r2 bos s caps k
      end
  | Group r =>
      rmatch r bos s caps
        (fun b s' caps' => k b s' (caps' ++ [take (length s - length s')%nat s]))
  end.

(** The whole pattern has matched: the match object is made of the groups. *)
Definition accept : cont := fun _ _ caps => Some caps.

Fixpoint search_from (r : regex) (bos : bool) (s : list ascii)
    : option (list (list ascii)) :=
  match rmatch r bos s [] accept with
  | Some m => Some m
  | None =>
      match s with
      | [] => None
      | _ :: s' => search_from r false s'
      end
  end.

(** [re.search(r, s)]: the match object is the list of its groups. *)
Definition search (r : regex) (s : string) : option (list (list ascii)) :=
  search_from r true (list_ascii_of_string s).

(** [m.group(n)] for [n >= 1]. *)
Definition group (m : list (list ascii)) (n : nat) : list ascii :=
  nth (n - 1) m [].

End Re.

(** ** binary64 values of the tolerance parser

    Only non-negative values occur: the numeral has no sign.  A finite
    value is kept as the rational it denotes. *)

Inductive b64 : Type :=
| Fin (q : Q)
| Inf.

(** floor (log2 (n/d)) *)
Definition ilog2 (n d : positive) : Z :=
  let k := Z.log2 (Z.pos n) - Z.log2 (Z.pos d) in
  if Z.pos n * 2 ^ Z.max 0 (- k) <? Z.pos d * 2 ^ Z.max 0 k then k - 1 else k.

(** [n/d] rounded to an integer, ties to even. *)
Definition round_half_even (n d : Z) : Z :=
  let q := n / d in
  let r := n mod d in
  match 2 * r ?= d with
  | Lt => q
  | Gt => q + 1
  | Eq => if Z.even q then q else q + 1
  end.

(** [m * 2^e] as a rational in lowest terms. *)
Definition dyadic (m e : Z) : Q :=
  Qred (if 0 <=? e then Qmake (m * 2 ^ e) 1 else Qmake m (Z.to_pos (2 ^ (- e)))).

(** Round-to-nearest-even into binary64: 53 significant bits, exponent of
    the last bit no smaller than -1074 (subnormals), infinity from
    2^1024 on. *)
Definition b64_round (q : Q) : b64 :=
  match Qnum q with
  | Z.pos n =>
      let e := Z.max (ilog2 n (Qden q) - 52) (-1074) in
      let m := round_half_even (Z.pos n * 2 ^ Z.max 0 (- e))
                               (Z.pos (Qden q) * 2 ^ Z.max 0 e) in
      if 2 ^ 1024 <=? m * 2 ^ Z.max 0 e then Inf else Fin (dyadic m e)
  | _ => Fin 0
  end.

Definition b64_mul (x y : b64) : b64 :=
  match x, y with
  | Fin a, Fin b => b64_round (a * b)
  | _, _ => Inf
  end.

(** ** [float(s)] on the text of a numeral

    Group 2 of the marker holds digits and periods only; on such text
    [float] accepts [digits], [digits.], [.digits] and [digits.digits], and
    raises [ValueError] otherwise.  The result is the binary64 nearest to
    the decimal value; a value too large for binary64 gives infinity, not an
    error. *)

Definition is_digit (c : ascii) : bool :=
  (48 <=? Z.of_N (N_of_ascii c)) && (Z.of_N (N_of_ascii c) <=? 57).

Definition digit_value (c : ascii) : Z := Z.of_N (N_of_ascii c) - 48.

Definition digits_value (ds : list ascii) : Z :=
  foldl (fun acc c => 10 * acc + digit_value c) 0 ds.

(** The text before and after the first period. *)
Fixpoint split_period (s : list ascii) : list ascii * option (list ascii) :=
  match s with
  | [] => ([], None)
  | c :: s' =>
      if bool_decide (c = "."%char) then ([], Some s')
      else let '(i, f) := split_period s' in (c :: i, f)
  end.

Definition decimal_parts (s : list ascii) : option (list ascii * list ascii) :=
  let '(i, f) := split_period s in
  let f := default [] f in
  if forallb is_digit i && forallb is_digit f
     && negb (bool_decide (i ++ f = []))
  then Some (i, f) else None.

Definition decimal_value (i f : list ascii) : Q :=
  Qmake (digits_value (i ++ f)) (Z.to_pos (10 ^ Z.of_nat (length f))).

Definition py_float (s : list ascii) : outcome b64 :=
  match decimal_parts s with
  | Some (i, f) => Returns (b64_round (decimal_value i f))
  | None => Raises ValueError
  end.

(** [int(x)] of a float: truncation; infinity raises. *)
Definition py_int (x : b64) : outcome Z :=
  match x with
  | Fin q => Returns (Z.quot (Qnum q) (Z.pos (Qden q)))
  | Inf => Raises OverflowError
  end.

(** ** The tolerance parser *)

(** [def mm_to_nm(mm): return int(mm * 1e6)] *)
Definition mm_to_nm (mm : b64) : outcome Z :=
  py_int (b64_mul mm (Fin (1000000 # 1))).

Definition is_numch (c : ascii) : bool :=
  is_digit c || bool_decide (c = "."%char).

(** [r"(^|_)LM([0-9\.]+)($|_)"] *)
Definition LM_pattern : Re.regex :=
  Re.Seq (Re.Group (Re.Alt Re.Bol (Re.Chr "_")))
  (Re.Seq (Re.Chr "L")
  (Re.Seq (Re.Chr "M")
  (Re.Seq (Re.Group (Re.PlusSet is_numch))
          (Re.Group (Re.Alt Re.Eol (Re.Chr "_")))))).

(** [get_tolerance(classname)]: [Returns None] is Python's [None]. *)
Definition get_tolerance (classname : string) : outcome (option Z) :=
  match Re.search LM_pattern classname with
  | None => Returns None
  | Some name =>
      x ← py_float (Re.group name 2);
      nm ← mm_to_nm x;
      Returns (Some nm)
  end.

(** ** Orders used by [sort] and [sorted]

    Python 2 compares byte strings lexicographically by character code, and
    tuples lexicographically by component. *)

Definition string_le (a b : string) : Prop := String.leb a b = true.

Definition net_le (a b : string * Z) : Prop :=
  match String.compare a.1 b.1 with
  | Lt => True
  | Eq => a.2 ≤ b.2
  | Gt => False
  end.

#[global] Instance string_le_dec a b : Decision (string_le a b).
Proof. unfold string_le. apply _. Defined.

#[global] Instance net_le_dec a b : Decision (net_le a b).
Proof. unfold net_le. destruct (String.compare a.1 b.1); apply _. Defined.

(** ** The net aggregator *)

(** Modelled from the spec: the track objects that [pcb.GetTracks()] yields.
    They belong to pcbnew, KiCad's library, which is not part of the script;
    the script reads three attributes of a track, and the data model of the
    specification gives a trace segment an owning net identifier, an owning
    group label and a length (integer, nanometres). *)
Record track : Type := Track {
  GetNetname : string;
  GetClassName : string;
  GetLength : Z
}.

(** [sum(...)]: a left fold from 0. *)
Definition sum (l : list Z) : Z := foldl Z.add 0 l.

(** The body of the [for netclass in netclasses] loop once the tolerance is
    known: the value stored under [result[netclass]]. *)
Definition netclass_entry (tracks : list track) (netclass : string)
    (tolerance : Z) : Z * list (string * Z) :=
  let tracks_netclass := filter (fun t => GetClassName t = netclass) tracks in
  let netnames :=
    merge_sort string_le
      (elements (list_to_set (GetNetname <$> tracks_netclass) : gset string)) in
  let nets :=
    (fun n => (n, sum (GetLength <$>
                         filter (fun t => GetNetname t = n) tracks_netclass)))
      <$> netnames in
  (tolerance, nets).

Fixpoint board_loop (tracks : list track) (netclasses : list string)
    (result : gmap string (Z * list (string * Z)))
    : outcome (gmap string (Z * list (string * Z))) :=
  match netclasses with
  | [] => Returns result
  | netclass :: rest =>
      tolerance ← get_tolerance netclass;
      match tolerance with
      | None => board_loop tracks rest result
      | Some tol =>
          board_loop tracks rest
            (<[netclass := netclass_entry tracks netclass tol]> result)
      end
  end.

(** [get_board_properties] from l.96 on, given the tracks that
    [pcbnew.LoadBoard] and [GetTracks] have yielded (l.89-95). *)
Definition get_board_properties (tracks : list track)
    : outcome (gmap string (Z * list (string * Z))) :=
  let netclasses :=
    elements (list_to_set (GetClassName <$> tracks) : gset string) in
  board_loop tracks netclasses ∅.

(** ** The matcher and its report *)

(** [l[i]] with Python's negative indices and [IndexError]. *)
Definition py_index {A : Type} (l : list A) (i : Z) : outcome A :=
  let j := if i <? 0 then i + Z.of_nat (length l) else i in
  if j <? 0 then Raises IndexError
  else match l !! Z.to_nat j with
       | Some x => Returns x
       | None => Raises IndexError
       end.

Definition sorted (x : list Z) : list Z := merge_sort Z.le x.

(** [median(x)] in exact arithmetic: the division by [2.0] without its
    rounding.  This is the median that [test_netclass] is modelled with.
    [median_float] below has the float division; the two agree on values
    below 2^52 ([median_float_exact]). *)
Definition median (x : list Z) : outcome Q :=
  let n := Z.of_nat (length x) in
  if negb (n mod 2 =? 0) then
    a ← py_index (sorted x) (n / 2);
    Returns (inject_Z a)
  else
    a ← py_index (sorted x) (n / 2);
    b ← py_index (sorted x) (n / 2 - 1);
    Returns (inject_Z (a + b) / 2)%Q.

(** [float(z)] of an integer, as [/ 2.0] applies it to the sum of two
    lengths: the nearest binary64, ties to even, and [OverflowError] when
    that lies beyond the largest float.  The float is kept as the rational
    it denotes. *)
Definition float_of_int (z : Z) : outcome Q :=
  match b64_round (inject_Z (Z.abs z)) with
  | Fin q => Returns (if z <? 0 then - q else q)%Q
  | Inf => Raises OverflowError
  end.

(** [median(x)] with the float division of its last line.  An odd count
    gives the middle element itself, an integer; an even count converts
    the sum of the two central elements to binary64 and halves it, which
    is exact on a float that came from an integer. *)
Definition median_float (x : list Z) : outcome Q :=
  let n := Z.of_nat (length x) in
  if negb (n mod 2 =? 0) then
    a ← py_index (sorted x) (n / 2);
    Returns (inject_Z a)
  else
    a ← py_index (sorted x) (n / 2);
    b ← py_index (sorted x) (n / 2 - 1);
    s ← float_of_int (a + b);
    Returns (s / 2)%Q.

(** The largest integer that still converts to a float is just below
    [2^1024 - 2^970], half a unit in the last place above the largest
    float. *)
Definition float_limit : Z := 2 ^ 1024 - 2 ^ 970.

Definition py_min (l : list Z) : outcome Z :=
  match l with
  | [] => Raises ValueError
  | x :: l' => Returns (foldl Z.min x l')
  end.

Definition py_max (l : list Z) : outcome Z :=
  match l with
  | [] => Raises ValueError
  | x :: l' => Returns (foldl Z.max x l')
  end.

#[global] Instance Qlt_dec (x y : Q) : Decision (x < y)%Q.
Proof. unfold Qlt. apply _. Defined.

(** [def nm_to_mm(nm): return float(nm) / 1e6], as the exact quotient.
    The script gets the nearest binary64 of it, which only ["%.2f"]
    consumes, and [OverflowError] from [float] on an integer of
    [float_limit] or more. *)
Definition nm_to_mm (nm : Q) : Q := (nm / 1000000)%Q.

Inductive color : Type := BRIGHTGREEN | BRIGHTRED.

(** What is written to standard output, one value per [print]. *)
Inductive line : Type :=
| summary_line (c : color) (netclass verdict : string) (tolerance variance : Q)
| net_line (net : string) (len : Q) (sign : string) (deviation : Q).

(** [test_netclass(netclass, tolerance, nets)].  The call sorts the
    caller's list in place and prints, so it yields the list as the call
    leaves it, the lines printed, and the value returned or the exception
    raised.  The sort, the minimum and maximum, the variance and the
    verdict are integer operations.  The numbers on the lines are kept
    exact ([nm_to_mm], [median]); lengths and tolerance are taken where
    their conversion to float succeeds. *)
Definition test_netclass (netclass : string) (tolerance : Z)
    (nets : list (string * Z)) : list (string * Z) * list line * outcome bool :=
  let nets := merge_sort net_le nets in
  match (minlen ← py_min (snd <$> nets);
         maxlen ← py_max (snd <$> nets);
         Returns (minlen, maxlen)) with
  | Raises e => (nets, [], Raises e)
  | Returns (minlen, maxlen) =>
      let delta := maxlen - minlen in
      let meets := bool_decide (delta < tolerance) in
      let out :=
        [summary_line (if meets then BRIGHTGREEN else BRIGHTRED) netclass
           (if meets then "MEETS" else "FAILS")
           (nm_to_mm (inject_Z tolerance)) (nm_to_mm (inject_Z delta))] in
      match median (snd <$> nets) with
      | Raises e => (nets, out, Raises e)
      | Returns medlen =>
          (nets,
           out ++ ((fun '(net, netlen) =>
                      net_line net (nm_to_mm (inject_Z netlen))
                        (if bool_decide (medlen < inject_Z netlen)%Q then "+" else "")
                        (nm_to_mm (inject_Z netlen - medlen)%Q)) <$> nets),
           Returns meets)
      end
  end.

(** ** The change-driven loop

    One pass of the body of [while True], after the wait for a new
    modification time and from the tracks of the board that was read.  The
    values of [props] hold the very lists that [test_netclass] sorts, so
    the pass carries [props] along and stores each list as the call leaves
    it.  What can fail before the tracks are there is added by [pass] and
    [run] further down. *)

Fixpoint evaluate_items (oldprops : gmap string (Z * list (string * Z)))
    (items : list (string * (Z * list (string * Z))))
    (props : gmap string (Z * list (string * Z))) (allmatches : bool)
    : gmap string (Z * list (string * Z)) * list line * outcome bool :=
  match items with
  | [] => (props, [], Returns allmatches)
  | (netclass, (tolerance, nets)) :: rest =>
      let unchanged :=
        match oldprops !! netclass with
        | Some old => bool_decide (old = (tolerance, nets))
        | None => false                        (* KeyError: pass *)
        end in
      if unchanged then evaluate_items oldprops rest props allmatches
      else
        let '(nets', out, r) := test_netclass netclass tolerance nets in
        let props := <[netclass := (tolerance, nets')]> props in
        match r with
        | Raises e => (props, out, Raises e)
        | Returns meets =>
            let '(props, out', r') :=
              evaluate_items oldprops rest props (meets && allmatches) in
            (props, out ++ out', r')
        end
  end.

Inductive next : Type :=
| Exit (status : bool)                                    (* sys.exit(...) *)
| Crash (e : exn)                                         (* uncaught *)
| WaitForChange (oldprops : gmap string (Z * list (string * Z))).

(** [once] is ["--once" in sys.argv]; [tracks] is the board as it is read
    by this pass. *)
Definition evaluate (once : bool) (tracks : list track)
    (oldprops : gmap string (Z * list (string * Z))) : list line * next :=
  match get_board_properties tracks with
  | Raises e => ([], Crash e)
  | Returns props =>
      let '(props, out, r) :=
        evaluate_items oldprops (map_to_list props) props true in
      match r with
      | Raises e => (out, Crash e)
      | Returns allmatches =>
          if once then (out, Exit (negb allmatches))
          else (out, WaitForChange props)
      end
  end.

(** The loop over the successive contents of the board file, one per
    change seen by the wait. *)
Fixpoint main_loop (once : bool) (boards : list (list track))
    (oldprops : gmap string (Z * list (string * Z))) : list line * next :=
  match boards with
  | [] => ([], WaitForChange oldprops)
  | tracks :: later =>
      match evaluate once tracks oldprops with
      | (out, WaitForChange props) =>
          let '(out', n) := main_loop once later props in (out ++ out', n)
      | stop => stop
      end
  end.

(** ** The loop and the board file

    [evaluate] and [main_loop] start from the tracks of a board.  Before
    the tracks are there a turn of the loop reads the modification time of
    the file and has pcbnew load it, and either can fail. *)

(** What a pass finds when it turns to the file: [os.path.getmtime] fails
    at l.164, which no [try] covers; or pcbnew fails to load the board
    (l.89-90); or the board is read, with these tracks. *)
Inductive attempt : Type :=
| FileMissing
| LoadFails
| Loaded (tracks : list track).

(** What ends the script uncaught. *)
Inductive uncaught : Type :=
| GetmtimeOSError
| LoadBoardError
| Raised (e : exn).

Inductive ending : Type :=
| Exits (status : bool)
| Dies (u : uncaught)
| Waits (oldprops : gmap string (Z * list (string * Z))).

(** One turn of [while True], from l.164 on. *)
Definition pass (once : bool) (a : attempt)
    (oldprops : gmap string (Z * list (string * Z))) : list line * ending :=
  match a with
  | FileMissing => ([], Dies GetmtimeOSError)
  | LoadFails => ([], Dies LoadBoardError)
  | Loaded tracks =>
      match evaluate once tracks oldprops with
      | (out, Exit status) => (out, Exits status)
      | (out, Crash e) => (out, Dies (Raised e))
      | (out, WaitForChange props) => (out, Waits props)
      end
  end.

(** The loop over what the successive turns find. *)
Fixpoint run (once : bool) (attempts : list attempt)
    (oldprops : gmap string (Z * list (string * Z))) : list line * ending :=
  match attempts with
  | [] => ([], Waits oldprops)
  | a :: later =>
      match pass once a oldprops with
      | (out, Waits props) =>
          let '(out', n) := run once later props in (out ++ out', n)
      | stop => stop
      end
  end.

(** The track lengths of a board are lengths, and together they stay
    below 2^1022, so that no length the script converts to float is out of
    range. *)
Definition lengths_in_range (tracks : list track) : Prop :=
  (∀ t, t ∈ tracks → 0 ≤ GetLength t) ∧ sum (GetLength <$> tracks) < 2 ^ 1022.

(** ** The pattern at one position

    What [LM_pattern] amounts to when it is tried at one position of the
    subject, written without backtracking.  The properties below show that
    [Re.rmatch] computes it. *)

(** The longest run of characters of a class at the head of a text, and
    what follows it. *)
Fixpoint take_run (f : ascii → bool) (s : list ascii) : list ascii :=
  match s with
  | c :: s' => if f c then c :: take_run f s' else []
  | [] => []
  end.

Fixpoint drop_run (f : ascii → bool) (s : list ascii) : list ascii :=
  match s with
  | c :: s' => if f c then drop_run f s' else s
  | [] => []
  end.

(** The marker read in one pass, without backtracking: what the pattern
    amounts to at one position.  [tail_group] is group 3 at [rest];
    [marker_at g1 s] is the rest of the pattern at [s] once group 1 has
    matched [g1]; [marker_here] tries both alternatives of group 1. *)
Definition tail_group (rest : list ascii) : option (list ascii) :=
  if Re.at_eol rest then Some []
  else match rest with
       | c :: _ => if bool_decide (c = "_"%char) then Some [c] else None
       | [] => None
       end.

Definition marker_at (g1 s : list ascii) : option (list (list ascii)) :=
  match s with
  | l :: m :: c :: r =>
      if bool_decide (l = "L"%char) && bool_decide (m = "M"%char) && is_numch c
      then match tail_group (drop_run is_numch r) with
           | Some g3 => Some [g1; c :: take_run is_numch r; g3]
           | None => None
           end
      else None
  | _ => None
  end.

Definition marker_here (bos : bool) (s : list ascii)
    : option (list (list ascii)) :=
  match (if bos then marker_at [] s else None) with
  | Some m => Some m
  | None =>
      match s with
      | c :: s' => if bool_decide (c = "_"%char) then marker_at [c] s' else None
      | [] => None
      end
  end.

(** ** Vocabulary of the specification

    Notions the claims are worded with, defined on their own and not through
    the code. *)

(** [lo] is the minimum, [hi] the maximum of the values [l]. *)
Definition minimum_of (lo : Z) (l : list Z) : Prop :=
  lo ∈ l ∧ ∀ x, x ∈ l → lo ≤ x.

Definition maximum_of (hi : Z) (l : list Z) : Prop :=
  hi ∈ l ∧ ∀ x, x ∈ l → x ≤ hi.

(** The marker as the specification words it: the text [LM], a decimal
    number (digits and at most one period), bounded by an underscore or the
    start of the label before, by an underscore or the end of the label
    after. *)
Definition LM : list ascii := ["L"; "M"]%char.

Definition left_bound (pre : list ascii) : Prop :=
  pre = [] ∨ ∃ p, pre = p ++ ["_"%char].

Definition right_bound (post : list ascii) : Prop :=
  post = [] ∨ ∃ p, post = "_"%char :: p.

Definition decimal_number (d : list ascii) : Prop :=
  Forall (fun c => is_digit c = true ∨ c = "."%char) d ∧
  (length (filter (fun c => c = "."%char) d) ≤ 1)%nat ∧
  Exists (fun c => is_digit c = true) d.

Definition has_marker (label : string) : Prop :=
  ∃ pre d post,
    list_ascii_of_string label = pre ++ LM ++ d ++ post ∧
    left_bound pre ∧ right_bound post ∧ decimal_number d.

(** The marker as the pattern has it: a non-empty run of digits and
    periods, and the end of the label may also be a final newline. *)
Definition numeral_run (d : list ascii) : Prop :=
  d ≠ [] ∧ Forall (fun c => is_numch c = true) d.

Definition right_bound_nl (post : list ascii) : Prop :=
  right_bound post ∨ post = ["010"%char].

Definition marker_shaped (label : string) : Prop :=
  ∃ pre d post,
    list_ascii_of_string label = pre ++ LM ++ d ++ post ∧
    left_bound pre ∧ right_bound_nl post ∧ numeral_run d.

(** [pre ++ LM ++ d ++ post] is the leftmost marker of the label. *)
Definition first_marker (label : string) (pre d post : list ascii) : Prop :=
  list_ascii_of_string label = pre ++ LM ++ d ++ post ∧
  left_bound pre ∧ right_bound_nl post ∧ numeral_run d ∧
  ∀ pre' d' post',
    list_ascii_of_string label = pre' ++ LM ++ d' ++ post' →
    left_bound pre' → right_bound_nl post' → numeral_run d' →
    (length pre ≤ length pre')%nat.

(** The total length of a net within a group: the sum of the lengths of
    the tracks of the board that carry both names. *)
Fixpoint total_length (netclass net : string) (tracks : list track) : Z :=
  match tracks with
  | [] => 0
  | t :: rest =>
      (if decide (GetClassName t = netclass ∧ GetNetname t = net)
       then GetLength t else 0)
      + total_length netclass net rest
  end.

(** Strictly ascending in the lexicographic order of byte strings. *)
Definition string_lt (a b : string) : Prop := String.ltb a b = true.

(** A group is re-tested in a pass when the previous snapshot has no equal
    value under its name; [report] is what testing it prints. *)
Definition changed (oldprops : gmap string (Z * list (string * Z)))
    (item : string * (Z * list (string * Z))) : Prop :=
  oldprops !! item.1 ≠ Some item.2.

#[global] Instance changed_dec oldprops item : Decision (changed oldprops item).
Proof. unfold changed. apply _. Defined.

Definition report (item : string * (Z * list (string * Z))) : list line :=
  (test_netclass item.1 item.2.1 item.2.2).1.2.

(** A small board used to exercise the statements below: two matched
    groups and one netclass without a marker. *)
Definition sample_board : list track :=
  [Track "B" "CLK_LM0.1" 5; Track "A" "CLK_LM0.1" 7; Track "B" "CLK_LM0.1" 11;
   Track "Z" "MISC" 1; Track "Q" "D_LM1.2" 4].

Definition sample_props : gmap string (Z * list (string * Z)) :=
  <["CLK_LM0.1" := (100000, [("A", 7); ("B", 16)])]>
    (<["D_LM1.2" := (1200000, [("Q", 4)])]> ∅).

(** The total length of the tracks of a netclass. *)
Fixpoint class_length (netclass : string) (tracks : list track) : Z :=
  match tracks with
  | [] => 0
  | t :: rest =>
      (if decide (GetClassName t = netclass) then GetLength t else 0)
      + class_length netclass rest
  end.

(** A group meets its tolerance: the spread of its lengths is below it. *)
Definition group_meets (entry : Z * list (string * Z)) : Prop :=
  ∃ lo hi, minimum_of lo entry.2.*2 ∧ maximum_of hi entry.2.*2 ∧
           hi - lo < entry.1.

(** A whole-number numeral of 310 digits, beyond the range of binary64. *)
Definition huge_numeral : list ascii := "1"%char :: replicate 309 "0"%char.

(** * Properties *)

(** ** The orders are total orders *)

Section string_order.

Lemma ascii_compare_lt_trans (a b c : ascii) :
  Ascii.compare a b = Lt → Ascii.compare b c = Lt → Ascii.compare a c = Lt.
Proof.
  unfold Ascii.compare. rewrite !N.compare_lt_iff. apply N.lt_trans.
Qed.

Lemma ascii_compare_refl (a : ascii) : Ascii.compare a a = Eq.
Proof. unfold Ascii.compare. apply N.compare_refl. Qed.

Lemma string_compare_refl (s : string) : String.compare s s = Eq.
Proof.
  induction s as [|c s IH]; simpl; [done|]. by rewrite ascii_compare_refl.
Qed.

Lemma string_compare_lt_trans (s1 s2 s3 : string) :
  String.compare s1 s2 = Lt → String.compare s2 s3 = Lt →
  String.compare s1 s3 = Lt.
Proof.
  revert s2 s3. induction s1 as [|c1 s1 IH]; intros [|c2 s2] [|c3 s3]; simpl;
    try done.
  destruct (Ascii.compare c1 c2) eqn:E12; try done;
    destruct (Ascii.compare c2 c3) eqn:E23; try done; intros H12 H23.
  - apply Ascii.compare_eq_iff in E12, E23. subst.
    rewrite ascii_compare_refl. eauto.
  - apply Ascii.compare_eq_iff in E12. subst. by rewrite E23.
  - apply Ascii.compare_eq_iff in E23. subst. by rewrite E12.
  - by rewrite (ascii_compare_lt_trans _ _ _ E12 E23).
Qed.

Lemma string_compare_eq (s1 s2 : string) :
  String.compare s1 s2 = Eq ↔ s1 = s2.
Proof.
  split; [apply String.compare_eq_iff|intros ->; apply string_compare_refl].
Qed.

#[global] Instance string_le_total : Total string_le.
Proof. intros a b. apply String.leb_total. Qed.

#[global] Instance string_le_antisymm : AntiSymm (=) string_le.
Proof. intros a b. apply String.leb_antisym. Qed.

#[global] Instance string_le_trans : Transitive string_le.
Proof.
  intros a b c. unfold string_le, String.leb.
  destruct (String.compare a b) eqn:Eab; try done;
    destruct (String.compare b c) eqn:Ebc; try done; intros _ _.
  - apply string_compare_eq in Eab, Ebc. subst. by rewrite string_compare_refl.
  - apply string_compare_eq in Eab. subst. by rewrite Ebc.
  - apply string_compare_eq in Ebc. subst. by rewrite Eab.
  - by rewrite (string_compare_lt_trans _ _ _ Eab Ebc).
Qed.

#[global] Instance net_le_total : Total net_le.
Proof.
  intros [a x] [b y]. unfold net_le. simpl.
  rewrite (String.compare_antisym b a).
  destruct (String.compare a b); simpl; auto. lia.
Qed.

#[global] Instance net_le_antisymm : AntiSymm (=) net_le.
Proof.
  intros [a x] [b y]. unfold net_le. simpl.
  rewrite (String.compare_antisym b a).
  destruct (String.compare a b) eqn:E; simpl; try done.
  apply string_compare_eq in E. intros. f_equal; [done|lia].
Qed.

#[global] Instance net_le_trans : Transitive net_le.
Proof.
  intros [a x] [b y] [c z]. unfold net_le. simpl.
  destruct (String.compare a b) eqn:Eab; try done;
    destruct (String.compare b c) eqn:Ebc; try done.
  - apply string_compare_eq in Eab, Ebc. subst.
    rewrite string_compare_refl. lia.
  - apply string_compare_eq in Eab. subst. by rewrite Ebc.
  - apply string_compare_eq in Ebc. subst. by rewrite Eab.
  - by rewrite (string_compare_lt_trans _ _ _ Eab Ebc).
Qed.

End string_order.

(** ** Sorting a sorted list changes nothing *)

Lemma merge_sort_sorted {A} (R : relation A) `{!∀ x y, Decision (R x y)}
    `{!Total R, !Transitive R, !AntiSymm (=) R} (l : list A) :
  Sorted R l → merge_sort R l = l.
Proof.
  intros Hl. apply (Sorted_unique R); [by apply Sorted_merge_sort|done|].
  apply merge_sort_Permutation.
Qed.

Lemma merge_sort_nil_inv {A} (R : relation A) `{!∀ x y, Decision (R x y)}
    (l : list A) :
  merge_sort R l = [] → l = [].
Proof.
  intros Hnil. apply Permutation_nil_r. rewrite <- Hnil.
  symmetry. apply merge_sort_Permutation.
Qed.

(** ** Minimum, maximum and indexing *)

Lemma foldl_min_spec (l : list Z) (x : Z) : minimum_of (foldl Z.min x l) (x :: l).
Proof.
  revert x. induction l as [|y l IH]; intros x; simpl.
  - split; [by left|]. intros z Hz%list_elem_of_singleton. lia.
  - destruct (IH (Z.min x y)) as [Hin Hle]. split.
    + rewrite !elem_of_cons. apply elem_of_cons in Hin as [Hin|Hin]; [|tauto].
      rewrite Hin. destruct (Z.min_spec x y) as [[_ ->]|[_ ->]]; tauto.
    + intros z Hz.
      assert (foldl Z.min (Z.min x y) l ≤ Z.min x y) as Hm by (apply Hle; left).
      rewrite !elem_of_cons in Hz. destruct Hz as [->|[->|Hz]]; [lia|lia|].
      apply Hle. by right.
Qed.

Lemma foldl_max_spec (l : list Z) (x : Z) : maximum_of (foldl Z.max x l) (x :: l).
Proof.
  revert x. induction l as [|y l IH]; intros x; simpl.
  - split; [by left|]. intros z Hz%list_elem_of_singleton. lia.
  - destruct (IH (Z.max x y)) as [Hin Hle]. split.
    + rewrite !elem_of_cons. apply elem_of_cons in Hin as [Hin|Hin]; [|tauto].
      rewrite Hin. destruct (Z.max_spec x y) as [[_ ->]|[_ ->]]; tauto.
    + intros z Hz.
      assert (Z.max x y ≤ foldl Z.max (Z.max x y) l) as Hm by (apply Hle; left).
      rewrite !elem_of_cons in Hz. destruct Hz as [->|[->|Hz]]; [lia|lia|].
      apply Hle. by right.
Qed.

Lemma py_min_spec (l : list Z) :
  l ≠ [] → ∃ lo, py_min l = Returns lo ∧ minimum_of lo l.
Proof.
  destruct l as [|x l]; [done|]. intros _. eexists. split; [done|].
  apply foldl_min_spec.
Qed.

Lemma py_max_spec (l : list Z) :
  l ≠ [] → ∃ hi, py_max l = Returns hi ∧ maximum_of hi l.
Proof.
  destruct l as [|x l]; [done|]. intros _. eexists. split; [done|].
  apply foldl_max_spec.
Qed.

Lemma minimum_of_Permutation (lo : Z) (l1 l2 : list Z) :
  l1 ≡ₚ l2 → minimum_of lo l1 → minimum_of lo l2.
Proof.
  intros Hp [Hin Hle]. split; [by rewrite <- Hp|].
  intros x Hx. apply Hle. by rewrite Hp.
Qed.

Lemma maximum_of_Permutation (hi : Z) (l1 l2 : list Z) :
  l1 ≡ₚ l2 → maximum_of hi l1 → maximum_of hi l2.
Proof.
  intros Hp [Hin Hle]. split; [by rewrite <- Hp|].
  intros x Hx. apply Hle. by rewrite Hp.
Qed.

Lemma py_index_nat {A} (l : list A) (i : nat) (x : A) :
  l !! i = Some x → py_index l (Z.of_nat i) = Returns x.
Proof.
  intros Hi. unfold py_index.
  assert ((Z.of_nat i <? 0) = false) as Hneg by (apply Z.ltb_ge; lia).
  rewrite Hneg. cbv zeta. by rewrite Hneg, Nat2Z.id, Hi.
Qed.

Lemma length_sorted (x : list Z) : length (sorted x) = length x.
Proof. unfold sorted. by rewrite merge_sort_Permutation. Qed.

(** ** The median *)

Lemma of_nat_half (n : nat) : Z.of_nat n / 2 = Z.of_nat (n / 2).
Proof. by rewrite (Nat2Z.inj_div n 2). Qed.

Lemma of_nat_parity (n : nat) : Z.of_nat n mod 2 = Z.of_nat (n mod 2).
Proof. by rewrite (Nat2Z.inj_mod n 2). Qed.

Lemma half_lt (n : nat) : n ≠ 0%nat → (n / 2 < n)%nat.
Proof. intros. apply Nat.div_lt; lia. Qed.

Lemma even_half_pos (n : nat) : n ≠ 0%nat → (n mod 2 = 0)%nat → (1 ≤ n / 2)%nat.
Proof.
  intros Hn Heven. pose proof (Nat.div_mod_eq n 2) as Hdm.
  rewrite Heven in Hdm. lia.
Qed.

Lemma median_odd (x : list Z) (m : Z) :
  (length x mod 2 = 1)%nat →
  sorted x !! (length x / 2)%nat = Some m →
  median x = Returns (inject_Z m).
Proof.
  intros Hodd Hm. unfold median.
  by rewrite of_nat_parity, Hodd, of_nat_half, (py_index_nat _ _ _ Hm).
Qed.

Lemma median_even (x : list Z) (a b : Z) :
  x ≠ [] → (length x mod 2 = 0)%nat →
  sorted x !! (length x / 2)%nat = Some a →
  sorted x !! (length x / 2 - 1)%nat = Some b →
  median x = Returns (inject_Z (a + b) / 2)%Q.
Proof.
  intros Hne Heven Ha Hb. unfold median.
  assert (length x ≠ 0%nat) as Hlen by (by destruct x).
  pose proof (even_half_pos _ Hlen Heven).
  rewrite of_nat_parity, Heven, of_nat_half.
  replace (Z.of_nat (length x / 2) - 1) with (Z.of_nat (length x / 2 - 1))
    by lia.
  by rewrite (py_index_nat _ _ _ Ha), (py_index_nat _ _ _ Hb).
Qed.

Lemma median_returns (x : list Z) : x ≠ [] → ∃ v, median x = Returns v.
Proof.
  intros Hne. assert (length x ≠ 0%nat) as Hlen by (by destruct x).
  pose proof (half_lt _ Hlen).
  destruct (lookup_lt_is_Some_2 (sorted x) (length x / 2)%nat) as [a Ha];
    [by rewrite length_sorted|].
  destruct (lookup_lt_is_Some_2 (sorted x) (length x / 2 - 1)%nat) as [b Hb];
    [rewrite length_sorted; lia|].
  pose proof (Nat.mod_upper_bound (length x) 2 ltac:(lia)).
  destruct (Nat.eq_dec (length x `mod` 2)%nat 1%nat) as [Hodd|Heven].
  - eexists. by apply median_odd.
  - eexists. apply median_even; [done|lia|done..].
Qed.

(** ** The matcher *)

Lemma test_netclass_sort_nil (nets : list (string * Z)) :
  nets ≠ [] → (merge_sort net_le nets).*2 ≠ [].
Proof.
  intros Hne Hnil. apply fmap_nil_inv in Hnil.
  by apply merge_sort_nil_inv in Hnil.
Qed.

(** C10: with an empty list of nets [test_netclass] raises (the minimum of
    an empty sequence) and has printed nothing: no verdict is reported and
    nothing is returned. *)
Theorem test_netclass_empty_raises (netclass : string) (tolerance : Z) :
  test_netclass netclass tolerance [] = ([], [], Raises ValueError).
Proof. reflexivity. Qed.

(** C4: for a non-empty list of nets [test_netclass] returns a verdict,
    and the verdict is "meets" exactly when the largest length minus the
    smallest length is strictly below the tolerance; when the difference
    equals the tolerance the verdict is "fails". *)
Theorem test_netclass_verdict (netclass : string) (tolerance : Z)
    (nets : list (string * Z)) :
  nets ≠ [] →
  ∃ nets' out meets lo hi,
    test_netclass netclass tolerance nets = (nets', out, Returns meets) ∧
    minimum_of lo nets.*2 ∧ maximum_of hi nets.*2 ∧
    (meets = true ↔ hi - lo < tolerance) ∧
    (hi - lo = tolerance → meets = false).
Proof.
  intros Hne. unfold test_netclass.
  pose proof (test_netclass_sort_nil nets Hne) as Hs.
  assert ((merge_sort net_le nets).*2 ≡ₚ nets.*2) as Hp
    by (by rewrite merge_sort_Permutation).
  destruct (py_min_spec _ Hs) as (lo & -> & Hlo).
  destruct (py_max_spec _ Hs) as (hi & Hhi & Hmax).
  destruct (median_returns _ Hs) as (medlen & ->).
  simpl. rewrite Hhi. simpl.
  eexists _, _, _, lo, hi. split; [reflexivity|].
  split; [by eapply minimum_of_Permutation|].
  split; [by eapply maximum_of_Permutation|].
  split; [apply bool_decide_eq_true|].
  intros Heq. apply bool_decide_eq_false. lia.
Qed.

Lemma test_netclass_verdict_witness :
  [("A", 5000000); ("B", 5300000)] ≠ [] ∧
  ∃ nets' out meets lo hi,
    test_netclass "CLK_LM0.1" 100000 [("A", 5000000); ("B", 5300000)]
      = (nets', out, Returns meets) ∧
    minimum_of lo [("A", 5000000); ("B", 5300000)].*2 ∧
    maximum_of hi [("A", 5000000); ("B", 5300000)].*2 ∧
    (meets = true ↔ hi - lo < 100000) ∧
    (hi - lo = 100000 → meets = false).
Proof.
  assert (Hne : [("A", 5000000); ("B", 5300000)] ≠ @nil (string * Z))
    by discriminate.
  exact (conj Hne (test_netclass_verdict "CLK_LM0.1" 100000 _ Hne)).
Defined.

(** C1, as the code has it: a group with a single net has variance 0, and
    its verdict is "meets" exactly when the tolerance is positive; with a
    tolerance of 0 the verdict is "fails". *)
Theorem test_netclass_single_net (netclass net : string) (tolerance len : Z) :
  let meets := bool_decide (0 < tolerance) in
  test_netclass netclass tolerance [(net, len)] =
    ([(net, len)],
     [summary_line (if meets then BRIGHTGREEN else BRIGHTRED) netclass
        (if meets then "MEETS" else "FAILS")
        (nm_to_mm (inject_Z tolerance)) (nm_to_mm (inject_Z 0));
      net_line net (nm_to_mm (inject_Z len)) ""
        (nm_to_mm (inject_Z len - inject_Z len)%Q)],
     Returns meets).
Proof.
  unfold test_netclass. simpl. rewrite Z.sub_diag.
  rewrite (bool_decide_ext (inject_Z len < inject_Z len)%Q False); [done|].
  split; [|done]. apply Qlt_irrefl.
Qed.

(** C1 fails at tolerance 0, the tolerance of the label "X_LM0". *)
Lemma single_net_zero_tolerance_fails :
  get_tolerance "X_LM0" = Returns (Some 0) ∧
  (test_netclass "X_LM0" 0 [("A", 5000000)]).2 = Returns false.
Proof. split; vm_compute; reflexivity. Qed.

Lemma test_netclass_nets (netclass : string) (tolerance : Z)
    (nets : list (string * Z)) :
  (test_netclass netclass tolerance nets).1.1 = merge_sort net_le nets.
Proof.
  unfold test_netclass.
  destruct (py_min _ ≫= _) as [[minlen maxlen]|e]; [|done].
  by destruct (median _).
Qed.

(** ** The tolerance parser on concrete labels *)

Example get_tolerance_LM1_2 : get_tolerance "LM1.2" = Returns (Some 1200000).
Proof. vm_compute. reflexivity. Qed.

Example get_tolerance_compound_LM1_2 :
  get_tolerance "X_LM1.2_Y" = Returns (Some 1200000).
Proof. vm_compute. reflexivity. Qed.

(** C2 at the numeral 4.1, whose value is 4,100,000 nm: [float] gives the
    binary64 nearest to 4.1, which lies below it; the product with [1e6]
    rounds to 8804682956799999 / 2^31 = 4099999.9999999995..., one step
    below 4100000; and [int] cuts that to 4,099,999. *)
Theorem get_tolerance_4_1_one_short :
  get_tolerance "LM4.1" = Returns (Some 4099999) ∧
  get_tolerance "X_LM4.1_Y" = Returns (Some 4099999) ∧
  (decimal_value (list_ascii_of_string "4") (list_ascii_of_string "1")
     * inject_Z 1000000 == inject_Z 4100000)%Q ∧
  py_float (list_ascii_of_string "4.1")
    = Returns (Fin (2308094809027379 # 562949953421312)) ∧
  b64_mul (Fin (2308094809027379 # 562949953421312)) (Fin (1000000 # 1))
    = Fin (8804682956799999 # 2147483648) ∧
  py_int (Fin (8804682956799999 # 2147483648)) = Returns 4099999.
Proof. repeat split; vm_compute; reflexivity. Qed.

(** ** binary64 on integers

    Integers below 2^53 are binary64 values: converting a length of that
    size to float changes nothing, which is why [median] and [nm_to_mm] keep
    lengths as exact rationals. *)

Lemma ilog2_int (n : positive) : ilog2 n 1 = Z.log2 (Z.pos n).
Proof.
  unfold ilog2. change (Z.log2 (Z.pos 1)) with 0. rewrite Z.sub_0_r.
  pose proof (Z.log2_nonneg (Z.pos n)) as Hk.
  destruct (Z.log2_spec (Z.pos n)) as [Hlo _]; [done|].
  rewrite (Z.max_l 0 (- _)) by lia. rewrite (Z.max_r 0 (Z.log2 _)) by lia.
  change (2 ^ 0) with 1.
  destruct (Z.ltb_spec (Z.pos n * 1) (1 * 2 ^ Z.log2 (Z.pos n))); [lia|done].
Qed.

Lemma round_half_even_int (n : Z) : round_half_even n 1 = n.
Proof.
  unfold round_half_even. rewrite Z.mod_1_r, Z.div_1_r. done.
Qed.

Lemma dyadic_scaled (n : positive) (e : Z) :
  e ≤ 0 → dyadic (Z.pos n * 2 ^ (- e)) e = inject_Z (Z.pos n).
Proof.
  intros He. unfold dyadic.
  assert (0 < 2 ^ (- e)) as Hpos by (apply Z.pow_pos_nonneg; lia).
  rewrite <- (Qred_identity (inject_Z (Z.pos n))) by (apply Z.gcd_1_r).
  apply Qred_complete.
  destruct (Z.leb_spec 0 e).
  - assert (e = 0) as -> by lia. simpl. unfold Qeq. simpl. lia.
  - unfold Qeq. simpl. rewrite Z2Pos.id by done. lia.
Qed.

Lemma b64_round_int_exact (z : Z) :
  0 ≤ z < 2 ^ 53 → b64_round (inject_Z z) = Fin (inject_Z z).
Proof.
  intros [Hlo Hhi]. destruct z as [|n|n]; [done| |lia].
  unfold b64_round, inject_Z. cbn [Qnum Qden]. cbv zeta.
  rewrite ilog2_int.
  assert (Z.log2 (Z.pos n) < 53) as Hlog by (apply Z.log2_lt_pow2; lia).
  pose proof (Z.log2_nonneg (Z.pos n)) as Hk.
  destruct (Z.log2_spec (Z.pos n)) as [_ Hup]; [done|].
  set (k := Z.log2 (Z.pos n)) in *.
  rewrite (Z.max_l (k - 52) (-1074)) by lia.
  rewrite (Z.max_r 0 (- (k - 52))) by lia.
  rewrite (Z.max_l 0 (k - 52)) by lia.
  change (2 ^ 0) with 1. rewrite Z.mul_1_r, round_half_even_int.
  assert (Z.pos n * 2 ^ (- (k - 52)) < 2 ^ 1024) as Hfin.
  { apply Z.lt_trans with (2 ^ (Z.succ k) * 2 ^ (- (k - 52))).
    - apply Z.mul_lt_mono_pos_r; [apply Z.pow_pos_nonneg; lia|done].
    - rewrite <- Z.pow_add_r by lia. apply Z.pow_lt_mono_r; lia. }
  destruct (Z.leb_spec (2 ^ 1024) (Z.pos n * 2 ^ (- (k - 52)))); [lia|].
  f_equal. apply dyadic_scaled. lia.
Qed.

(** ** The pattern read without backtracking *)

Lemma take_drop_run (f : ascii → bool) (s : list ascii) :
  take_run f s ++ drop_run f s = s.
Proof.
  induction s as [|c s IH]; simpl; [done|].
  destruct (f c); simpl; [by rewrite IH|done].
Qed.

Lemma greedy_longest (f : ascii → bool) (s : list ascii)
    (k : list ascii → option (list (list ascii))) :
  (∀ c rest, f c = true → k (c :: rest) = None) →
  Re.greedy f s k = k (drop_run f s).
Proof.
  intros Hk. induction s as [|c s IH]; simpl; [done|].
  destruct (f c) eqn:Hc; [|done].
  rewrite IH. destruct (k (drop_run f s)); [done|]. by apply Hk.
Qed.

Lemma tail_group_numch (c : ascii) (rest : list ascii) :
  is_numch c = true → tail_group (c :: rest) = None.
Proof.
  intros Hc. unfold tail_group, Re.at_eol.
  destruct rest; repeat case_bool_decide; subst; try done.
Qed.
Lemma rmatch_Seq r1 r2 b s caps k :
  Re.rmatch (Re.Seq r1 r2) b s caps k
  = Re.rmatch r1 b s caps (fun b' s' caps' => Re.rmatch r2 b' s' caps' k).
Proof. done. Qed.

Lemma rmatch_Chr c b s caps k :
  Re.rmatch (Re.Chr c) b s caps k
  = match s with
    | c' :: s' => if bool_decide (c' = c) then k false s' caps else None
    | [] => None
    end.
Proof. done. Qed.

Lemma rmatch_Group r b s caps k :
  Re.rmatch (Re.Group r) b s caps k
  = Re.rmatch r b s caps
      (fun b' s' caps' => k b' s' (caps' ++ [take (length s - length s')%nat s])).
Proof. done. Qed.

Lemma rmatch_PlusSet f b s caps k :
  Re.rmatch (Re.PlusSet f) b s caps k
  = match s with
    | c :: s' =>
        if f c then Re.greedy f s' (fun rest => k false rest caps) else None
    | [] => None
    end.
Proof. done. Qed.

Lemma rmatch_Alt r1 r2 b s caps k :
  Re.rmatch (Re.Alt r1 r2) b s caps k
  = match Re.rmatch r1 b s caps k with
    | Some m => Some m
    | None => Re.rmatch r2 b s caps k
    end.
Proof. done. Qed.

Lemma rmatch_Bol b s caps k :
  Re.rmatch Re.Bol b s caps k = if b then k b s caps else None.
Proof. done. Qed.

Lemma rmatch_tail_group (b : bool) (s : list ascii) (caps : list (list ascii)) :
  Re.rmatch (Re.Group (Re.Alt Re.Eol (Re.Chr "_"))) b s caps Re.accept
  = match tail_group s with Some g3 => Some (caps ++ [g3]) | None => None end.
Proof.
  simpl. unfold tail_group.
  destruct (Re.at_eol s) eqn:He.
  - unfold Re.accept. by rewrite Nat.sub_diag.
  - destruct s as [|c s]; [done|]. case_bool_decide; [|done].
    unfold Re.accept. simpl. 
    replace (S (length s) - length s)%nat with 1%nat by lia. done.
Qed.

Lemma take_run_length (f : ascii → bool) (s : list ascii) :
  take (length s - length (drop_run f s)) s = take_run f s.
Proof.
  rewrite <- (take_drop_run f s) at 1 3.
  rewrite length_app, Nat.add_sub. by rewrite take_app_length.
Qed.

Lemma rmatch_numeral_group (b : bool) (c : ascii) (r : list ascii) (g1 : list ascii) :
  is_numch c = true →
  Re.rmatch (Re.Seq (Re.Group (Re.PlusSet is_numch))
                    (Re.Group (Re.Alt Re.Eol (Re.Chr "_")))) b (c :: r) [g1] Re.accept
  = match tail_group (drop_run is_numch r) with
    | Some g3 => Some [g1; c :: take_run is_numch r; g3]
    | None => None
    end.
Proof.
  intros Hc. rewrite rmatch_Seq, rmatch_Group, rmatch_PlusSet, Hc.
  rewrite greedy_longest.
  - rewrite rmatch_tail_group.
    destruct (tail_group _); [|done]. 
    pose proof (take_run_length is_numch (c :: r)) as Hrun.
    simpl in Hrun. rewrite Hc in Hrun. simpl. by rewrite Hrun.  
  - intros c' rest Hc'. rewrite rmatch_tail_group.
    by rewrite tail_group_numch.
Qed.

Lemma rmatch_marker_at (b : bool) (g1 s : list ascii) :
  Re.rmatch (Re.Seq (Re.Chr "L") (Re.Seq (Re.Chr "M")
     (Re.Seq (Re.Group (Re.PlusSet is_numch))
          (Re.Group (Re.Alt Re.Eol (Re.Chr "_")))))) b s [g1] Re.accept = marker_at g1 s.
Proof.
  rewrite rmatch_Seq, rmatch_Chr. unfold marker_at.
  destruct s as [|l s]; [done|].
  case_bool_decide; [|by destruct s as [|? [|? ?]]].
  rewrite rmatch_Seq, rmatch_Chr.
  destruct s as [|m s]; [done|].
  case_bool_decide; [|by destruct s as [|? ?]].
  destruct s as [|c r]; [done|]. simpl andb.
  destruct (is_numch c) eqn:Hc.
  - by apply rmatch_numeral_group.
  - by rewrite rmatch_Seq, rmatch_Group, rmatch_PlusSet, Hc.
Qed.

Lemma rmatch_LM (bos : bool) (s : list ascii) :
  Re.rmatch LM_pattern bos s [] Re.accept = marker_here bos s.
Proof.
  unfold LM_pattern, marker_here.
  rewrite rmatch_Seq, rmatch_Group, rmatch_Alt, rmatch_Bol, rmatch_Chr.
  cbv beta. rewrite Nat.sub_diag, take_0. cbn [app].
  assert (∀ (c : ascii) s', take (length (c :: s') - length s') (c :: s') = [c]) as Hone.
  { intros c s'. replace (length (c :: s') - length s')%nat with 1%nat
      by (simpl; lia). done. }
  destruct bos.
  - rewrite rmatch_marker_at. destruct (marker_at [] s); [done|].
    destruct s as [|c s]; [done|]. case_bool_decide; [|done].
    by rewrite Hone, rmatch_marker_at.
  - destruct s as [|c s]; [done|]. case_bool_decide; [|done].
    by rewrite Hone, rmatch_marker_at.
Qed.

(** ** What a match of the pattern looks like *)

Lemma Forall_take_run (f : ascii → bool) (s : list ascii) :
  Forall (fun c => f c = true) (take_run f s).
Proof.
  induction s as [|c s IH]; simpl; [done|].
  destruct (f c) eqn:Hc; by constructor.
Qed.

Lemma run_app (f : ascii → bool) (run rest : list ascii) :
  Forall (fun c => f c = true) run →
  (∀ c rest', rest = c :: rest' → f c = false) →
  take_run f (run ++ rest) = run ∧ drop_run f (run ++ rest) = rest.
Proof.
  intros Hrun Hrest. induction Hrun as [|c run Hc _ [IH1 IH2]]; simpl.
  - destruct rest as [|c rest']; [done|]. simpl. by rewrite (Hrest c rest').
  - by rewrite Hc, IH1, IH2.
Qed.

Lemma tail_group_Some (rest g3 : list ascii) :
  tail_group rest = Some g3 → right_bound_nl rest.
Proof.
  unfold tail_group, Re.at_eol, right_bound_nl, right_bound.
  destruct rest as [|c [|c' rest]]; repeat case_bool_decide; subst;
    intros; simplify_eq; eauto.
Qed.

Lemma right_bound_nl_tail_group (rest : list ascii) :
  right_bound_nl rest →
  is_Some (tail_group rest) ∧ ∀ c rest', rest = c :: rest' → is_numch c = false.
Proof.
  intros [[->|[p ->]]| ->]; (split; [|by intros; simplify_eq]).
  - done.
  - unfold tail_group, Re.at_eol. by destruct p.
  - done.
Qed.

Lemma marker_at_Some (g1 s : list ascii) (m : list (list ascii)) :
  marker_at g1 s = Some m →
  ∃ run rest g3, m = [g1; run; g3] ∧ s = LM ++ run ++ rest ∧
                 numeral_run run ∧ right_bound_nl rest.
Proof.
  unfold marker_at. destruct s as [|l [|m' [|c r]]]; try done.
  repeat case_bool_decide; simpl; try done. subst.
  destruct (is_numch c) eqn:Hc; [|done].
  destruct (tail_group _) as [g3|] eqn:Hg3; [|done]. intros [= <-].
  exists (c :: take_run is_numch r), (drop_run is_numch r), g3.
  split; [done|]. split; [simpl; by rewrite take_drop_run|].
  split; [|by eapply tail_group_Some].
  split; [done|]. constructor; [done|]. apply Forall_take_run.
Qed.

Lemma marker_at_complete (g1 run rest : list ascii) :
  numeral_run run → right_bound_nl rest →
  ∃ g3, marker_at g1 (LM ++ run ++ rest) = Some [g1; run; g3].
Proof.
  intros [Hne Hrun] Hrest.
  destruct (right_bound_nl_tail_group _ Hrest) as [[g3 Hg3] Hnot].
  destruct run as [|c run]; [done|]. apply Forall_cons in Hrun as [Hc Hrun].
  destruct (run_app is_numch run rest Hrun Hnot) as [Htake Hdrop].
  exists g3. simpl. by rewrite Hc, Htake, Hdrop, Hg3.
Qed.

Lemma marker_here_Some (bos : bool) (s : list ascii) (m : list (list ascii)) :
  marker_here bos s = Some m →
  ∃ g1 run rest,
    s = g1 ++ LM ++ run ++ rest ∧ Re.group m 2 = run ∧
    ((g1 = [] ∧ bos = true) ∨ g1 = ["_"%char]) ∧
    numeral_run run ∧ right_bound_nl rest.
Proof.
  unfold marker_here.
  destruct (if bos then marker_at [] s else None) as [m'|] eqn:Hfirst.
  - intros [= ->]. destruct bos; [|done].
    apply marker_at_Some in Hfirst as (run & rest & g3 & -> & -> & ? & ?).
    exists [], run, rest. eauto 10.
  - destruct s as [|c s]; [done|]. case_bool_decide; [|done]. subst.
    intros (run & rest & g3 & -> & -> & ? & ?)%marker_at_Some.
    exists ["_"%char], run, rest. eauto 10.
Qed.

Lemma marker_here_complete (bos : bool) (g1 run rest : list ascii) :
  (g1 = [] ∧ bos = true) ∨ g1 = ["_"%char] →
  numeral_run run → right_bound_nl rest →
  ∃ g3, marker_here bos (g1 ++ LM ++ run ++ rest) = Some [g1; run; g3].
Proof.
  intros Hg1 Hrun Hrest. unfold marker_here.
  destruct Hg1 as [[-> ->]| ->].
  - destruct (marker_at_complete [] run rest Hrun Hrest) as [g3 Hm].
    exists g3. rewrite app_nil_l. by rewrite Hm.
  - destruct (marker_at_complete ["_"%char] run rest Hrun Hrest) as [g3 Hm].
    exists g3.
    change (["_"%char] ++ LM ++ run ++ rest)
      with ("_"%char :: "L"%char :: "M"%char :: run ++ rest).
    assert (marker_at [] ("_"%char :: "L"%char :: "M"%char :: run ++ rest)
              = None) as Hfirst by done.
    rewrite Hfirst. destruct bos; cbv iota;
      by rewrite bool_decide_eq_true_2 by done.
Qed.

(** [search_from] finds a match exactly when the pattern matches at some
    position of the subject. *)
Lemma search_from_None (r : Re.regex) (bos : bool) (s : list ascii) :
  Re.search_from r bos s = None ↔
  ∀ a b, s = a ++ b →
    Re.rmatch r (bos && bool_decide (a = [])) b [] Re.accept = None.
Proof.
  revert bos. induction s as [|c s IH]; intros bos; simpl.
  - split.
    + destruct (Re.rmatch r bos [] [] Re.accept) eqn:Hm; [done|].
      intros _ a b Hab. symmetry in Hab. apply app_eq_nil in Hab as [-> ->].
      by rewrite andb_true_r.
    + intros Hall. specialize (Hall [] [] eq_refl).
      rewrite andb_true_r in Hall. by rewrite Hall.
  - split.
    + destruct (Re.rmatch r bos (c :: s) [] Re.accept) eqn:Hm; [done|].
      intros Hrest a b Hab. destruct a as [|c' a]; simpl in Hab.
      * subst b. by rewrite andb_true_r.
      * injection Hab as -> ->. rewrite andb_false_r.
        by apply (proj1 (IH false) Hrest a b).
    + intros Hall. pose proof (Hall [] (c :: s) eq_refl) as H0.
      rewrite andb_true_r in H0. rewrite H0. apply IH.
      intros a b ->. specialize (Hall (c :: a) b eq_refl).
      by rewrite andb_false_r in Hall.
Qed.

Lemma search_from_Some (r : Re.regex) (bos : bool) (s : list ascii)
    (m : list (list ascii)) :
  Re.search_from r bos s = Some m →
  ∃ a b, s = a ++ b ∧
    Re.rmatch r (bos && bool_decide (a = [])) b [] Re.accept = Some m.
Proof.
  revert bos. induction s as [|c s IH]; intros bos; simpl.
  - destruct (Re.rmatch r bos [] [] Re.accept) eqn:Hm; [|done].
    intros [= ->]. exists [], []. by rewrite andb_true_r.
  - destruct (Re.rmatch r bos (c :: s) [] Re.accept) eqn:Hm.
    + intros [= ->]. exists [], (c :: s). by rewrite andb_true_r.
    + intros (a & b & -> & Hab)%IH. exists (c :: a), b.
      split; [done|]. by rewrite andb_false_r.
Qed.

Lemma search_from_first (r : Re.regex) (bos : bool) (s : list ascii)
    (m : list (list ascii)) :
  Re.search_from r bos s = Some m →
  ∃ a b, s = a ++ b ∧
    Re.rmatch r (bos && bool_decide (a = [])) b [] Re.accept = Some m ∧
    ∀ a' b', s = a' ++ b' → (length a' < length a)%nat →
      Re.rmatch r (bos && bool_decide (a' = [])) b' [] Re.accept = None.
Proof.
  revert bos. induction s as [|c s IH]; intros bos; simpl.
  - destruct (Re.rmatch r bos [] [] Re.accept) eqn:Hm; [|done].
    intros [= ->]. exists [], []. rewrite andb_true_r.
    split; [done|]. split; [done|]. simpl. lia.
  - destruct (Re.rmatch r bos (c :: s) [] Re.accept) eqn:Hm.
    + intros [= ->]. exists [], (c :: s). rewrite andb_true_r.
      split; [done|]. split; [done|]. simpl. lia.
    + intros (a & b & -> & Hab & Hmin)%IH. exists (c :: a), b.
      split; [done|]. split; [by rewrite andb_false_r|].
      intros a' b' Hs Hlen. destruct a' as [|c' a']; simpl in Hs.
      * subst b'. by rewrite andb_true_r.
      * injection Hs as -> Hs. rewrite andb_false_r.
        apply (Hmin a' b' Hs). simpl in Hlen. lia.
Qed.

(** ** Numerals that [float] accepts are decimal numbers *)

Lemma split_period_spec (s : list ascii) :
  ("."%char ∉ (split_period s).1) ∧
  s = (split_period s).1
        ++ match (split_period s).2 with
           | Some f => "."%char :: f
           | None => []
           end.
Proof.
  induction s as [|c s [IH1 IH2]]; simpl.
  - split; [apply not_elem_of_nil|done].
  - case_bool_decide as Hc; simpl.
    + subst. split; [apply not_elem_of_nil|done].
    + destruct (split_period s) as [i f]. simpl in *. split.
      * rewrite elem_of_cons. intros [?|?]; [congruence|done].
      * by rewrite <- IH2.
Qed.

Lemma digit_not_period (c : ascii) : is_digit c = true → c ≠ "."%char.
Proof. by intros Hc ->. Qed.

Lemma digits_filter_period (l : list ascii) :
  forallb is_digit l = true → filter (fun c => c = "."%char) l = [].
Proof.
  induction l as [|c l IH]; simpl; [done|].
  intros [Hc Hl]%andb_true_iff. rewrite filter_cons_False; [by apply IH|].
  by apply digit_not_period.
Qed.

Lemma digits_Forall (l : list ascii) :
  forallb is_digit l = true →
  Forall (fun c => is_digit c = true ∨ c = "."%char) l.
Proof.
  rewrite forallb_forall, Forall_forall. intros Hl c Hc%list_elem_of_In.
  left. by apply Hl.
Qed.

Lemma digits_Exists (l : list ascii) :
  forallb is_digit l = true → l ≠ [] → Exists (fun c => is_digit c = true) l.
Proof.
  destruct l as [|c l]; [done|]. simpl.
  intros [Hc _]%andb_true_iff _. by left.
Qed.

Lemma decimal_parts_Some (s i f : list ascii) :
  decimal_parts s = Some (i, f) → decimal_number s.
Proof.
  unfold decimal_parts. destruct (split_period_spec s) as [_ Hs].
  destruct (split_period s) as [i0 f0]. simpl in Hs.
  destruct (_ && _) eqn:Hok; [|done]. intros [= -> <-].
  apply andb_true_iff in Hok as [[Hi Hf]%andb_true_iff Hne].
  apply negb_true_iff, bool_decide_eq_false in Hne.
  assert (forallb is_digit (i ++ default [] f0) = true) as Hall.
  { rewrite forallb_app. by rewrite Hi, Hf. }
  pose proof (digits_Exists _ Hall Hne) as Hex.
  rewrite Hs. destruct f0 as [f0|]; simpl in *.
  - split; [|split].
    + apply Forall_app. split; [by apply digits_Forall|].
      constructor; [by right|by apply digits_Forall].
    + rewrite filter_app, filter_cons_True by done.
      rewrite (digits_filter_period _ Hi), (digits_filter_period _ Hf).
      simpl. lia.
    + apply Exists_app. apply Exists_app in Hex as [?|?]; [by left|].
      right. by right.
  - rewrite app_nil_r in *. split; [|split].
    + by apply digits_Forall.
    + rewrite (digits_filter_period _ Hi). simpl. lia.
    + done.
Qed.

Lemma no_period_digits (l : list ascii) :
  Forall (fun c => is_digit c = true ∨ c = "."%char) l →
  "."%char ∉ l → forallb is_digit l = true.
Proof.
  induction 1 as [|c l Hc _ IH]; [done|]. intros Hno. simpl.
  apply not_elem_of_cons in Hno as [Hne Hno].
  destruct Hc as [->|Hc]; [|by destruct Hne]. by rewrite IH.
Qed.

Lemma decimal_number_parts (s : list ascii) :
  decimal_number s → ∃ i f, decimal_parts s = Some (i, f).
Proof.
  intros (Hall & Hperiods & Hdigit). unfold decimal_parts.
  destruct (split_period_spec s) as [Hno Hs].
  destruct (split_period s) as [i f0]. simpl in Hno, Hs.
  rewrite Hs in Hall, Hperiods, Hdigit.
  apply Forall_app in Hall as [Hi Hf].
  pose proof (no_period_digits i Hi Hno) as Hdi.
  rewrite filter_app, (digits_filter_period _ Hdi) in Hperiods.
  assert (forallb is_digit (default [] f0) = true ∧ default [] f0 ≠ [] ∨
          forallb is_digit (default [] f0) = true ∧ i ≠ []) as Hok.
  { destruct f0 as [f|].
    - change (default [] (Some f)) with f.
      rewrite filter_cons_True in Hperiods by done. simpl in Hperiods.
      apply Forall_cons in Hf as [_ Hf].
      assert (forallb is_digit f = true) as Hdf.
      { apply no_period_digits; [done|].
        apply (filter_nil_not_elem_of (fun c => c = "."%char)); [|done].
        apply length_zero_iff_nil. lia. }
      apply Exists_app in Hdigit as [Hd|Hd].
      + right. split; [done|]. intros ->. by apply Exists_nil in Hd.
      + apply Exists_cons in Hd as [Hd|Hd]; [done|].
        left. split; [done|]. intros ->. by apply Exists_nil in Hd.
    - change (default [] (@None (list ascii))) with (@nil ascii).
      right. split; [done|]. rewrite app_nil_r in Hdigit.
      intros ->. by apply Exists_nil in Hdigit. }
  assert (i ++ default [] f0 ≠ []) as Hne.
  { intros [-> Hf0]%app_eq_nil. by destruct Hok as [[_ ?]|[_ ?]]. }
  assert (forallb is_digit (default [] f0) = true) as Hdf
    by (by destruct Hok as [[? _]|[? _]]).
  rewrite Hdi, Hdf, bool_decide_eq_false_2 by done. simpl. eauto.
Qed.

Lemma py_float_malformed (s : list ascii) :
  ¬ decimal_number s → py_float s = Raises ValueError.
Proof.
  intros Hs. unfold py_float.
  destruct (decimal_parts s) as [[i f]|] eqn:Hparts; [|done].
  destruct Hs. by eapply decimal_parts_Some.
Qed.

(** ** The tolerance parser and the marker *)

Lemma search_LM_None (label : string) :
  Re.search LM_pattern label = None ↔ ¬ marker_shaped label.
Proof.
  unfold Re.search. rewrite search_from_None. split.
  - intros Hnone (pre & d & post & Hlabel & Hleft & Hright & Hd).
    destruct Hleft as [->|[p ->]].
    + specialize (Hnone [] _ Hlabel). rewrite rmatch_LM in Hnone. simpl in Hnone.
      destruct (marker_here_complete true [] d post) as [g3 Hm]; auto.
      rewrite app_nil_l in Hm. simpl in Hm. congruence.
    + rewrite <- (assoc_L (++)) in Hlabel.
      specialize (Hnone p _ Hlabel). rewrite rmatch_LM in Hnone.
      destruct (marker_here_complete (bool_decide (p = [])) ["_"%char] d post)
        as [g3 Hm]; auto.
      simpl in Hnone, Hm. congruence.
  - intros Hno a b Hab. rewrite rmatch_LM.
    destruct (marker_here _ b) as [m|] eqn:Hm; [|done]. destruct Hno.
    apply marker_here_Some in Hm
      as (g1 & run & rest & -> & _ & Hg1 & Hrun & Hrest).
    exists (a ++ g1), run, rest. rewrite <- (assoc_L (++)).
    split; [done|]. split; [|done].
    destruct Hg1 as [[-> Hbos]| ->]; [|right; by exists a].
    left. apply andb_true_iff in Hbos as [_ Ha%bool_decide_eq_true].
    by subst.
Qed.

Lemma search_LM_Some (label : string) (m : list (list ascii)) :
  Re.search LM_pattern label = Some m →
  ∃ pre post,
    list_ascii_of_string label = pre ++ LM ++ Re.group m 2 ++ post ∧
    left_bound pre ∧ right_bound_nl post ∧ numeral_run (Re.group m 2).
Proof.
  intros (a & b & Hab & Hm)%search_from_Some. rewrite rmatch_LM in Hm.
  apply marker_here_Some in Hm
    as (g1 & run & rest & -> & -> & Hg1 & Hrun & Hrest).
  exists (a ++ g1), rest. rewrite <- (assoc_L (++)).
  split; [done|]. split; [|done].
  destruct Hg1 as [[-> Hbos]| ->]; [|right; by exists a].
  left. apply andb_true_iff in Hbos as [_ Ha%bool_decide_eq_true]. by subst.
Qed.

Lemma get_tolerance_None (label : string) :
  get_tolerance label = Returns None ↔ Re.search LM_pattern label = None.
Proof.
  unfold get_tolerance. destruct (Re.search LM_pattern label) as [m|]; [|done].
  split; [|done].
  destruct (py_float _) as [x|]; simpl; [|done].
  by destruct (mm_to_nm x).
Qed.

(** The pattern finds the leftmost marker of a label. *)
Lemma search_first_marker (label : string) (pre run post : list ascii) :
  first_marker label pre run post →
  ∃ g1 g3, Re.search LM_pattern label = Some [g1; run; g3].
Proof.
  intros (Hlabel & Hleft & Hright & Hrun & Hfirst).
  destruct (Re.search LM_pattern label) as [m|] eqn:Hsearch; cycle 1.
  { apply search_LM_None in Hsearch. destruct Hsearch.
    by exists pre, run, post. }
  unfold Re.search in Hsearch.
  apply search_from_first in Hsearch as (a & b & Hab & Hm & Hmin).
  rewrite rmatch_LM in Hm.
  pose proof Hm as Hm'. apply marker_here_Some in Hm'
    as (g1 & run' & rest' & Hb & Hgroup & Hg1 & Hrun' & Hrest').
  assert (left_bound (a ++ g1)) as Hleft'.
  { destruct Hg1 as [[-> Hbos]| ->]; [|right; by exists a].
    left. apply andb_true_iff in Hbos as [_ Ha%bool_decide_eq_true].
    by subst. }
  assert (length pre ≤ length (a ++ g1))%nat as Hle.
  { apply (Hfirst (a ++ g1) run' rest'); [|done..].
    rewrite Hab, Hb. by rewrite <- (assoc_L (++)). }
  destruct Hleft as [->|[p ->]].
  - (* the marker opens the label *)
    destruct a as [|c a].
    + simpl in Hab. subst b. simpl in Hm.
      destruct (marker_here_complete true [] run post) as [g3 Hm3]; auto.
      assert (marker_here true (list_ascii_of_string label)
                = Some [[]; run; g3]) as Hm3'
        by (rewrite Hlabel; exact Hm3).
      rewrite Hm in Hm3'. injection Hm3' as ->. eauto.
    + specialize (Hmin [] _ Hab ltac:(simpl; lia)).
      rewrite rmatch_LM in Hmin. simpl in Hmin.
      destruct (marker_here_complete true [] run post) as [g3 Hm3]; auto.
      assert (marker_here true (list_ascii_of_string label)
                = Some [[]; run; g3]) as Hm3'
        by (rewrite Hlabel; exact Hm3).
      rewrite Hab in Hm3'. simpl in Hm3', Hmin. congruence.
  - (* the marker follows an underscore *)
    rewrite <- (assoc_L (++)) in Hlabel.
    destruct (marker_here_complete (true && bool_decide (p = [])) ["_"%char]
                run post) as [g3 Hm3]; auto.
    destruct (decide (length p < length a)%nat) as [Hlt|Hge].
    { specialize (Hmin p _ Hlabel Hlt). rewrite rmatch_LM in Hmin.
      rewrite Hmin in Hm3. done. }
    rewrite !length_app in Hle. simpl in Hle.
    assert (length a = length p) as Hlen.
    { destruct Hg1 as [[-> _]| ->]; simpl in Hle; lia. }
    rewrite Hab in Hlabel.
    apply app_inj_1 in Hlabel as [-> ->]; [|done].
    rewrite Hm in Hm3. injection Hm3 as ->. eauto.
Qed.

Lemma get_tolerance_first_marker (label : string) (pre run post : list ascii) :
  first_marker label pre run post →
  get_tolerance label
    = (x ← py_float run; nm ← mm_to_nm x; Returns (Some nm)).
Proof.
  intros (g1 & g3 & Hsearch)%search_first_marker.
  unfold get_tolerance. by rewrite Hsearch.
Qed.

(** C7: when the leftmost marker of a label stands in boundary position and
    the run of digits and periods after it is not a decimal number, as in
    "BUS_LM1.2.3", [get_tolerance] raises [ValueError]; it does not return
    [None]. *)
Theorem get_tolerance_malformed_raises (label : string)
    (pre run post : list ascii) :
  first_marker label pre run post →
  ¬ decimal_number run →
  get_tolerance label = Raises ValueError ∧
  get_tolerance label ≠ Returns None.
Proof.
  intros Hfirst Hbad. rewrite (get_tolerance_first_marker _ _ _ _ Hfirst).
  by rewrite (py_float_malformed _ Hbad).
Qed.

(** Walks a concrete label from the left, looking for the place where a
    decomposition [pre ++ ...] can start. *)
Ltac peel Hl pre :=
  destruct pre as [|? pre]; simpl in Hl;
  [ try discriminate Hl
  | first [ discriminate Hl | injection Hl as <- Hl; peel Hl pre ] ].

Lemma first_marker_BUS_LM1_2_3 :
  first_marker "BUS_LM1.2.3" (list_ascii_of_string "BUS_")
    (list_ascii_of_string "1.2.3") [].
Proof.
  split; [done|]. split; [right; by exists (list_ascii_of_string "BUS")|].
  split; [by left; left|]. split.
  { split; [done|]. by repeat constructor. }
  intros pre' d' post' Hl _ _ _.
  cbn [list_ascii_of_string] in Hl. unfold LM in Hl.
  peel Hl pre'. simpl. lia.
Qed.

Lemma get_tolerance_malformed_raises_witness :
  first_marker "BUS_LM1.2.3" (list_ascii_of_string "BUS_")
    (list_ascii_of_string "1.2.3") [] ∧
  ¬ decimal_number (list_ascii_of_string "1.2.3") ∧
  get_tolerance "BUS_LM1.2.3" = Raises ValueError ∧
  get_tolerance "BUS_LM1.2.3" ≠ Returns None.
Proof.
  assert (Hbad : ¬ decimal_number (list_ascii_of_string "1.2.3")).
  { intros (_ & Hperiods & _). vm_compute in Hperiods. lia. }
  exact (conj first_marker_BUS_LM1_2_3 (conj Hbad
           (get_tolerance_malformed_raises "BUS_LM1.2.3" _ _ _
              first_marker_BUS_LM1_2_3 Hbad))).
Defined.

(** ** The net aggregator *)

Lemma board_loop_spec (tracks : list track) (netclasses : list string)
    (acc props : gmap string (Z * list (string * Z))) :
  board_loop tracks netclasses acc = Returns props →
  ∀ nc,
    (nc ∈ netclasses →
       ∃ t, get_tolerance nc = Returns t ∧
            props !! nc = match t with
                          | Some tol => Some (netclass_entry tracks nc tol)
                          | None => acc !! nc
                          end) ∧
    (nc ∉ netclasses → props !! nc = acc !! nc).
Proof.
  revert acc. induction netclasses as [|netclass rest IH]; intros acc; simpl.
  - intros [= <-] nc. split; [by intros ?%elem_of_nil|done].
  - destruct (get_tolerance netclass) as [t|e] eqn:Ht; simpl; [|done].
    intros Hloop nc.
    assert (∃ acc', board_loop tracks rest acc' = Returns props ∧
              acc' !! netclass
                = match t with
                  | Some tol => Some (netclass_entry tracks netclass tol)
                  | None => acc !! netclass
                  end ∧
              ∀ nc', nc' ≠ netclass → acc' !! nc' = acc !! nc')
      as (acc' & Hloop' & Hsame & Hother).
    { destruct t as [tol|]; eexists; (split; [exact Hloop|]).
      - split; [apply lookup_insert_eq|].
        intros nc' Hne. by apply lookup_insert_ne.
      - done. }
    destruct (IH acc' Hloop' nc) as [IHin IHout].
    destruct (decide (nc = netclass)) as [->|Hne].
    + split; [|intros []; left]. intros _.
      destruct (decide (netclass ∈ rest)) as [Hin|Hout].
      * destruct (IHin Hin) as (t' & Ht' & Hp). exists t'. split; [done|].
        rewrite Hp. rewrite Ht in Ht'. injection Ht' as <-.
        by destruct t.
      * exists t. split; [done|]. by rewrite (IHout Hout).
    + split.
      * intros [?|Hin]%elem_of_cons; [done|].
        destruct (IHin Hin) as (t' & Ht' & Hp). exists t'. split; [done|].
        rewrite Hp. destruct t'; [done|]. by apply Hother.
      * intros Hout. rewrite IHout; [by apply Hother|].
        intros Hin. apply Hout. by right.
Qed.

Lemma get_board_properties_lookup (tracks : list track)
    (props : gmap string (Z * list (string * Z))) (nc : string)
    (v : Z * list (string * Z)) :
  get_board_properties tracks = Returns props →
  props !! nc = Some v ↔
  (∃ t, t ∈ tracks ∧ GetClassName t = nc) ∧
  ∃ tol, get_tolerance nc = Returns (Some tol) ∧
         v = netclass_entry tracks nc tol.
Proof.
  intros Hprops. unfold get_board_properties in Hprops.
  destruct (board_loop_spec _ _ _ _ Hprops nc) as [Hin Hout].
  set (netclasses := elements _) in *.
  assert (nc ∈ netclasses ↔ ∃ t, t ∈ tracks ∧ GetClassName t = nc) as Hiff.
  { unfold netclasses.
    rewrite elem_of_elements, elem_of_list_to_set, list_elem_of_fmap.
    split; [intros (t & -> & ?)|intros (t & ? & <-)]; eauto. }
  rewrite <- Hiff. split.
  - intros Hv. destruct (decide (nc ∈ netclasses)) as [Hex|Hno].
    + destruct (Hin Hex) as (t & Ht & Hp). rewrite Hv in Hp.
      destruct t as [tol|]; [|by rewrite lookup_empty in Hp].
      split; [done|]. exists tol. split; [done|]. congruence.
    + rewrite (Hout Hno), lookup_empty in Hv. done.
  - intros [Hex (tol & Htol & ->)].
    destruct (Hin Hex) as (t' & Ht' & Hp).
    rewrite Hp. rewrite Htol in Ht'. by injection Ht' as <-.
Qed.

Lemma foldl_add (l : list Z) (a : Z) : foldl Z.add a l = a + foldl Z.add 0 l.
Proof.
  revert a. induction l as [|x l IH]; intros a; simpl; [lia|].
  rewrite (IH (a + x)), (IH (0 + x)). lia.
Qed.

Lemma sum_cons (x : Z) (l : list Z) : sum (x :: l) = x + sum l.
Proof. unfold sum. simpl. apply foldl_add. Qed.

Lemma sum_total_length (tracks : list track) (netclass net : string) :
  sum (GetLength <$>
         filter (fun t => GetNetname t = net)
           (filter (fun t => GetClassName t = netclass) tracks))
  = total_length netclass net tracks.
Proof.
  induction tracks as [|t tracks IH]; simpl; [done|].
  rewrite filter_cons. destruct (decide (GetClassName t = netclass)) as [Hc|Hc].
  - rewrite filter_cons. destruct (decide (GetNetname t = net)) as [Hn|Hn].
    + rewrite decide_True by done. rewrite fmap_cons, sum_cons. by rewrite IH.
    + rewrite decide_False by (by intros [_ ?]). by rewrite IH.
  - rewrite decide_False by (by intros [? _]). by rewrite IH.
Qed.

Lemma string_le_lt (a b : string) : string_le a b → a ≠ b → string_lt a b.
Proof.
  unfold string_le, string_lt, String.leb, String.ltb.
  destruct (String.compare a b) eqn:Hc; try done.
  by apply string_compare_eq in Hc.
Qed.

Lemma sorted_nodup_strict (l : list string) :
  Sorted string_le l → NoDup l → StronglySorted string_lt l.
Proof.
  intros Hs%(Sorted_StronglySorted string_le).
  induction Hs as [|x l _ IH Hx]; intros Hnd; [constructor|].
  apply NoDup_cons in Hnd as [Hnotin Hnd]. constructor; [by apply IH|].
  rewrite Forall_forall in *. intros y Hy. apply string_le_lt; [by apply Hx|].
  intros ->. by apply Hnotin, list_elem_of_In.
Qed.

Lemma fmap_pair_fst {A B} (f : A → B) (l : list A) :
  ((fun a => (a, f a)) <$> l).*1 = l.
Proof.
  induction l as [|a l IH]; [done|]. rewrite !fmap_cons. cbn [fst].
  by f_equal.
Qed.

Lemma netclass_entry_spec (tracks : list track) (netclass : string)
    (tolerance : Z) :
  (netclass_entry tracks netclass tolerance).1 = tolerance ∧
  StronglySorted string_lt (netclass_entry tracks netclass tolerance).2.*1 ∧
  ∀ net len,
    (net, len) ∈ (netclass_entry tracks netclass tolerance).2 ↔
    (∃ t, t ∈ tracks ∧ GetClassName t = netclass ∧ GetNetname t = net) ∧
    len = total_length netclass net tracks.
Proof.
  unfold netclass_entry. simpl. split; [done|].
  set (tracks_netclass := filter _ tracks).
  set (names := list_to_set (GetNetname <$> tracks_netclass) : gset string).
  assert (∀ net, net ∈ merge_sort string_le (elements names) ↔
            ∃ t, t ∈ tracks ∧ GetClassName t = netclass ∧ GetNetname t = net)
    as Hnames.
  { intros net. rewrite merge_sort_Permutation, elem_of_elements.
    unfold names, tracks_netclass.
    rewrite elem_of_list_to_set, list_elem_of_fmap.
    setoid_rewrite list_elem_of_filter.
    split; [intros (t & -> & ? & ?)|intros (t & ? & ? & <-)]; eauto. }
  split.
  - rewrite fmap_pair_fst. apply sorted_nodup_strict.
    + apply Sorted_merge_sort; apply _.
    + rewrite merge_sort_Permutation. apply NoDup_elements.
  - intros net len. rewrite list_elem_of_fmap. rewrite <- Hnames. split.
    + intros (n & [= -> ->] & Hn). split; [done|]. apply sum_total_length.
    + intros [Hn ->]. exists net. split; [|done].
      f_equal. symmetry. apply sum_total_length.
Qed.

(** C3: in every group of the mapping returned by [get_board_properties]
    the net names are in strictly ascending lexicographic order, and the
    pairs listed are exactly the nets that have a track in the group, each
    with the integer sum of the lengths of its tracks in the group. *)
Theorem get_board_properties_nets (tracks : list track)
    (props : gmap string (Z * list (string * Z))) (netclass : string)
    (tolerance : Z) (nets : list (string * Z)) :
  get_board_properties tracks = Returns props →
  props !! netclass = Some (tolerance, nets) →
  StronglySorted string_lt nets.*1 ∧
  ∀ net len,
    (net, len) ∈ nets ↔
    (∃ t, t ∈ tracks ∧ GetClassName t = netclass ∧ GetNetname t = net) ∧
    len = total_length netclass net tracks.
Proof.
  intros Hprops Hnc.
  apply (get_board_properties_lookup _ _ _ _ Hprops) in Hnc
    as [_ (tol & _ & Hentry)].
  destruct (netclass_entry_spec tracks netclass tol) as (_ & Hsorted & Hnets).
  rewrite <- Hentry in Hsorted, Hnets. done.
Qed.

Lemma get_board_properties_nets_witness :
  get_board_properties sample_board = Returns sample_props ∧
  sample_props !! "CLK_LM0.1" = Some (100000, [("A", 7); ("B", 16)]) ∧
  StronglySorted string_lt [("A", 7); ("B", 16)].*1 ∧
  ∀ net len,
    (net, len) ∈ [("A", 7); ("B", 16)] ↔
    (∃ t, t ∈ sample_board ∧ GetClassName t = "CLK_LM0.1" ∧ GetNetname t = net) ∧
    len = total_length "CLK_LM0.1" net sample_board.
Proof.
  assert (H1 : get_board_properties sample_board = Returns sample_props)
    by (vm_compute; reflexivity).
  assert (H2 : sample_props !! "CLK_LM0.1"
                 = Some (100000, [("A", 7); ("B", 16)]))
    by (vm_compute; reflexivity).
  exact (conj H1 (conj H2
           (get_board_properties_nets sample_board sample_props "CLK_LM0.1"
              100000 [("A", 7); ("B", 16)] H1 H2))).
Defined.

(** ** Which labels carry a tolerance *)

Lemma decimal_number_run (d : list ascii) : decimal_number d → numeral_run d.
Proof.
  intros (Hall & _ & Hex). split.
  - intros ->. by apply Exists_nil in Hex.
  - eapply Forall_impl; [exact Hall|]. intros c [Hc| ->]; [|done].
    unfold is_numch. by rewrite Hc.
Qed.

Lemma has_marker_shaped (label : string) : has_marker label → marker_shaped label.
Proof.
  intros (pre & d & post & Hlabel & Hleft & Hright & Hd).
  exists pre, d, post. split; [done|]. split; [done|].
  split; [by left|by apply decimal_number_run].
Qed.

(** ** The change-driven loop *)

Lemma names_sorted_nets_sorted (nets : list (string * Z)) :
  StronglySorted string_lt nets.*1 → Sorted net_le nets.
Proof.
  intros Hs. apply StronglySorted_Sorted.
  induction nets as [|a nets IH]; [constructor|].
  rewrite fmap_cons in Hs. apply StronglySorted_cons in Hs as [Ha Hs].
  constructor; [by apply IH|].
  rewrite Forall_fmap in Ha. eapply Forall_impl; [exact Ha|].
  intros b Hab. unfold net_le. simpl in Hab. unfold string_lt, String.ltb in Hab.
  by destruct (String.compare a.1 b.1).
Qed.

Lemma test_netclass_nonempty (netclass : string) (tolerance : Z)
    (nets : list (string * Z)) :
  nets ≠ [] →
  ∃ c v t d (f : string * Z → line) meets,
    test_netclass netclass tolerance nets
      = (merge_sort net_le nets,
         summary_line c netclass v t d :: (f <$> merge_sort net_le nets),
         Returns meets) ∧
    ∀ x, ∃ n l s dv, f x = net_line n l s dv.
Proof.
  intros Hne. unfold test_netclass.
  pose proof (test_netclass_sort_nil nets Hne) as Hs.
  destruct (py_min_spec _ Hs) as (lo & -> & _).
  destruct (py_max_spec _ Hs) as (hi & Hhi & _).
  destruct (median_returns _ Hs) as (medlen & ->).
  simpl. rewrite Hhi. simpl.
  eexists _, _, _, _, _, _. split; [reflexivity|].
  intros [net netlen]. eauto.
Qed.

Lemma report_lines (item : string * (Z * list (string * Z))) :
  item.2.2 ≠ [] →
  ∀ netclass,
    (∃ c v t d, summary_line c netclass v t d ∈ report item) ↔
    netclass = item.1.
Proof.
  intros Hne netclass. unfold report.
  destruct (test_netclass_nonempty item.1 item.2.1 _ Hne)
    as (c & v & t & d & f & meets & -> & Hf).
  simpl. split.
  - intros (c' & v' & t' & d' & Hin).
    apply elem_of_cons in Hin as [[= _ -> _ _ _]|Hin]; [done|].
    apply list_elem_of_fmap in Hin as (x & Hx & _).
    destruct (Hf x) as (n & l & s & dv & Hfx). congruence.
  - intros ->. exists c, v, t, d. by left.
Qed.

Lemma evaluate_items_spec (oldprops props : gmap string (Z * list (string * Z)))
    (items : list (string * (Z * list (string * Z)))) (allmatches : bool) :
  (∀ item, item ∈ items →
     props !! item.1 = Some item.2 ∧ Sorted net_le item.2.2 ∧ item.2.2 ≠ []) →
  ∃ b,
    evaluate_items oldprops items props allmatches
      = (props, flat_map report (filter (changed oldprops) items), Returns b).
Proof.
  revert allmatches.
  induction items as [|[netclass [tolerance nets]] items IH];
    intros allmatches Hitems; simpl.
  - by eexists.
  - assert (∀ item, item ∈ items →
              props !! item.1 = Some item.2 ∧ Sorted net_le item.2.2 ∧
              item.2.2 ≠ []) as Hrest
      by (intros item Hin; apply Hitems; by right).
    destruct (Hitems (netclass, (tolerance, nets))) as (Hlookup & Hsorted & Hne);
      [by left|]. simpl in *.
    set (item := (netclass, (tolerance, nets))).
    destruct (decide (changed oldprops item)) as [Hch|Hun].
    + assert (match oldprops !! netclass with
              | Some old => bool_decide (old = (tolerance, nets))
              | None => false
              end = false) as ->.
      { unfold changed in Hch. simpl in Hch.
        destruct (oldprops !! netclass) as [old|]; [|done].
        apply bool_decide_eq_false. congruence. }
      rewrite filter_cons_True by done. simpl.
      destruct (test_netclass_nonempty netclass tolerance nets Hne)
        as (c & v & t & d & f & meets & Htest & _).
      unfold report at 1. simpl. rewrite Htest. simpl.
      rewrite (merge_sort_sorted net_le nets Hsorted).
      rewrite (insert_id props netclass) by done.
      destruct (IH (meets && allmatches) Hrest) as [b ->]. by eexists.
    + assert (match oldprops !! netclass with
              | Some old => bool_decide (old = (tolerance, nets))
              | None => false
              end = true) as ->.
      { unfold changed in Hun. simpl in Hun.
        destruct (oldprops !! netclass) as [old|]; [|by destruct Hun].
        apply bool_decide_eq_true.
        destruct (decide (old = (tolerance, nets))); [done|].
        destruct Hun. congruence. }
      rewrite filter_cons_False by done. by apply IH.
Qed.

Lemma filter_none {A} (P : A → Prop) `{!∀ x, Decision (P x)} (l : list A) :
  (∀ x, x ∈ l → ¬ P x) → filter P l = [].
Proof.
  induction l as [|x l IH]; intros Hl; [done|].
  rewrite filter_cons_False by (apply Hl; by left).
  apply IH. intros y Hy. apply Hl. by right.
Qed.

Lemma elem_of_flat_map {A B} (f : A → list B) (l : list A) (y : B) :
  y ∈ flat_map f l ↔ ∃ x, x ∈ l ∧ y ∈ f x.
Proof.
  rewrite list_elem_of_In, in_flat_map.
  by setoid_rewrite list_elem_of_In.
Qed.

(** A pass over a board that loads: [props] is the mapping that
    [get_board_properties] returns for its tracks. *)
Section loaded_board.

Context (tracks : list track) (props : gmap string (Z * list (string * Z))).
Hypothesis Hprops : get_board_properties tracks = Returns props.

Lemma get_board_properties_entry (netclass : string) (tolerance : Z)
    (nets : list (string * Z)) :
  props !! netclass = Some (tolerance, nets) →
  Sorted net_le nets ∧ nets ≠ [].
Proof.
  intros Hnc.
  apply (get_board_properties_lookup _ _ _ _ Hprops) in Hnc
    as [(t & Ht & Hclass) (tol & _ & Hentry)].
  destruct (netclass_entry_spec tracks netclass tol) as (_ & Hsorted & Hnets).
  rewrite <- Hentry in Hsorted, Hnets. simpl in *. split.
  - by apply names_sorted_nets_sorted.
  - intros ->.
    assert ((GetNetname t, total_length netclass (GetNetname t) tracks)
              ∈ @nil (string * Z)) as Hin by (apply Hnets; eauto).
    by apply elem_of_nil in Hin.
Qed.

Lemma evaluate_returns (oldprops : gmap string (Z * list (string * Z))) :
  evaluate false tracks oldprops
    = (flat_map report (filter (changed oldprops) (map_to_list props)),
       WaitForChange props).
Proof.
  unfold evaluate. rewrite Hprops.
  destruct (evaluate_items_spec oldprops props (map_to_list props) true)
    as [b ->]; [|done].
  intros [netclass [tolerance nets]] Hin%elem_of_map_to_list. simpl.
  split; [done|]. by eapply get_board_properties_entry.
Qed.

(** C8: in continuous mode a pass over a board whose groups are [props]
    prints exactly the reports of the groups that are new or whose
    (tolerance, nets) differs from the previous snapshot, one call of
    [test_netclass] each; a group is announced in the output exactly when
    it is such a group; the snapshot the loop waits with, and compares the
    next pass against, is [props]; and a pass over unchanged data prints
    nothing. *)
Theorem evaluate_continuous (oldprops : gmap string (Z * list (string * Z))) :
  evaluate false tracks oldprops
    = (flat_map report (filter (changed oldprops) (map_to_list props)),
       WaitForChange props) ∧
  (∀ netclass,
     (∃ c v t d,
        summary_line c netclass v t d ∈ (evaluate false tracks oldprops).1) ↔
     (∃ entry, props !! netclass = Some entry ∧
               oldprops !! netclass ≠ Some entry)) ∧
  (∀ later,
     main_loop false (tracks :: later) oldprops
       = ((evaluate false tracks oldprops).1 ++ (main_loop false later props).1,
          (main_loop false later props).2)) ∧
  evaluate false tracks props = ([], WaitForChange props).
Proof.
  pose proof (evaluate_returns oldprops) as Hev.
  split; [done|]. split; [|split].
  - intros netclass. rewrite Hev. simpl. split.
    + intros (c & v & t & d & Hin).
      apply elem_of_flat_map in Hin as (item & Hitem & Hin).
      apply list_elem_of_filter in Hitem as [Hch Hitem].
      destruct item as [nc entry].
      apply elem_of_map_to_list in Hitem.
      destruct entry as [tolerance nets].
      destruct (get_board_properties_entry _ _ _ Hitem) as [_ Hne].
      assert (netclass = nc) as ->
        by (apply (report_lines (nc, (tolerance, nets)) Hne); eauto).
      by exists (tolerance, nets).
    + intros ([tolerance nets] & Hentry & Hch).
      destruct (get_board_properties_entry _ _ _ Hentry) as [_ Hne].
      destruct (proj2 (report_lines (netclass, (tolerance, nets)) Hne netclass)
                  eq_refl) as (c & v & t & d & Hin).
      exists c, v, t, d. apply elem_of_flat_map.
      exists (netclass, (tolerance, nets)). split; [|done].
      apply list_elem_of_filter. split; [done|].
      by apply elem_of_map_to_list.
  - intros later. simpl. rewrite Hev. simpl.
    by destruct (main_loop false later props).
  - rewrite (evaluate_returns props).
    rewrite filter_none; [done|].
    intros [netclass entry] Hin%elem_of_map_to_list Hch. by apply Hch.
Qed.

End loaded_board.

Lemma evaluate_continuous_witness :
  get_board_properties sample_board = Returns sample_props ∧
  evaluate false sample_board ∅
    = (flat_map report (filter (changed ∅) (map_to_list sample_props)),
       WaitForChange sample_props) ∧
  (∀ netclass,
     (∃ c v t d,
        summary_line c netclass v t d ∈ (evaluate false sample_board ∅).1) ↔
     (∃ entry, sample_props !! netclass = Some entry ∧
               (∅ : gmap string (Z * list (string * Z))) !! netclass
                 ≠ Some entry)) ∧
  (∀ later,
     main_loop false (sample_board :: later) ∅
       = ((evaluate false sample_board ∅).1
            ++ (main_loop false later sample_props).1,
          (main_loop false later sample_props).2)) ∧
  evaluate false sample_board sample_props = ([], WaitForChange sample_props).
Proof.
  assert (H1 : get_board_properties sample_board = Returns sample_props)
    by (vm_compute; reflexivity).
  exact (conj H1 (evaluate_continuous sample_board sample_props H1 ∅)).
Defined.

(** C9, as the code has it: besides printing, [test_netclass] sorts the
    caller's list in place.  The list is left as the sorted rearrangement
    of what it was; it is left as it was when it was sorted already, which
    holds for every list that [get_board_properties] builds. *)
Theorem test_netclass_sorts_in_place :
  (∀ netclass tolerance nets,
     (test_netclass netclass tolerance nets).1.1 ≡ₚ nets ∧
     Sorted net_le (test_netclass netclass tolerance nets).1.1 ∧
     (Sorted net_le nets → (test_netclass netclass tolerance nets).1.1 = nets)) ∧
  (∀ tracks props netclass tolerance nets,
     get_board_properties tracks = Returns props →
     props !! netclass = Some (tolerance, nets) →
     (test_netclass netclass tolerance nets).1.1 = nets).
Proof.
  split.
  - intros netclass tolerance nets. rewrite test_netclass_nets.
    split; [apply merge_sort_Permutation|].
    split; [apply Sorted_merge_sort; apply _|].
    apply merge_sort_sorted; apply _.
  - intros tracks props netclass tolerance nets Hprops Hentry.
    rewrite test_netclass_nets. apply merge_sort_sorted; try apply _.
    by eapply get_board_properties_entry.
Qed.

(** C9 fails on a list that is not sorted: the caller finds it reordered. *)
Lemma test_netclass_reorders_nets :
  (test_netclass "X_LM1" 1000000 [("B", 1); ("A", 2)]).1.1
    = [("A", 2); ("B", 1)] ∧
  (test_netclass "X_LM1" 1000000 [("B", 1); ("A", 2)]).1.1
    ≠ [("B", 1); ("A", 2)].
Proof. split; vm_compute; [reflexivity|discriminate]. Qed.

(** * Further properties of the code *)

(** ** More on the median *)

Lemma sorted_Permutation (x y : list Z) : x ≡ₚ y → sorted x = sorted y.
Proof.
  intros Hp. unfold sorted. apply (Sorted_unique Z.le).
  - apply Sorted_merge_sort; apply _.
  - apply Sorted_merge_sort; apply _.
  - by rewrite !merge_sort_Permutation.
Qed.

Lemma median_perm (x y : list Z) : x ≡ₚ y → median x = median y.
Proof.
  intros Hp. unfold median.
  by rewrite (sorted_Permutation x y Hp), (Permutation_length Hp).
Qed.

(** X1: the median does not depend on the order in which the values are
    passed. *)
Theorem median_Permutation (x y : list Z) : x ≡ₚ y → median x = median y.
Proof.
  intros Hp. unfold median.
  assert (sorted x = sorted y) as ->.
  { apply (Sorted_unique Z.le); [apply Sorted_merge_sort; apply _..|].
    unfold sorted. by rewrite !merge_sort_Permutation. }
  by rewrite (Permutation_length Hp).
Qed.

Lemma median_Permutation_witness :
  [3; 1; 2; 8] ≡ₚ [1; 3; 2; 8] ∧ median [3; 1; 2; 8] = median [1; 3; 2; 8].
Proof.
  assert (Hp : [3; 1; 2; 8] ≡ₚ [1; 3; 2; 8]) by apply perm_swap.
  exact (conj Hp (median_Permutation _ _ Hp)).
Defined.

Lemma sorted_elem_of (x : list Z) (i : nat) (a : Z) :
  sorted x !! i = Some a → a ∈ x.
Proof.
  intros Hi%list_elem_of_lookup_2. unfold sorted in Hi.
  by rewrite merge_sort_Permutation in Hi.
Qed.

(** Least and greatest element of a concrete list. *)
Ltac extremum :=
  split;
  [ repeat constructor
  | let a := fresh "a" in let Ha := fresh "Ha" in
    intros a Ha;
    repeat (apply elem_of_cons in Ha as [->|Ha]; [lia|]);
    by apply elem_of_nil in Ha ].

(** ** More on the matcher *)

Lemma merge_sort_Permutation_eq {A} (R : relation A)
    `{!∀ x y, Decision (R x y)} `{!Total R, !Transitive R, !AntiSymm (=) R}
    (l1 l2 : list A) :
  l1 ≡ₚ l2 → merge_sort R l1 = merge_sort R l2.
Proof.
  intros Hp. apply (Sorted_unique R).
  - by apply Sorted_merge_sort.
  - by apply Sorted_merge_sort.
  - by rewrite !merge_sort_Permutation.
Qed.

Lemma minimum_of_unique (lo lo' : Z) (l : list Z) :
  minimum_of lo l → minimum_of lo' l → lo = lo'.
Proof. intros [Hin Hle] [Hin' Hle']. apply Hle in Hin'. apply Hle' in Hin. lia. Qed.

Lemma maximum_of_unique (hi hi' : Z) (l : list Z) :
  maximum_of hi l → maximum_of hi' l → hi = hi'.
Proof. intros [Hin Hle] [Hin' Hle']. apply Hle in Hin'. apply Hle' in Hin. lia. Qed.

(** The whole of [test_netclass] on a non-empty list, in terms of the least
    and greatest length and the median of the list as it was passed. *)
Lemma test_netclass_spec (netclass : string) (tolerance : Z)
    (nets : list (string * Z)) (lo hi : Z) :
  minimum_of lo nets.*2 → maximum_of hi nets.*2 →
  ∃ medlen,
    median nets.*2 = Returns medlen ∧
    test_netclass netclass tolerance nets
      = (merge_sort net_le nets,
         summary_line
           (if bool_decide (hi - lo < tolerance) then BRIGHTGREEN else BRIGHTRED)
           netclass
           (if bool_decide (hi - lo < tolerance) then "MEETS" else "FAILS")
           (nm_to_mm (inject_Z tolerance)) (nm_to_mm (inject_Z (hi - lo)))
         :: ((fun '(net, netlen) =>
                net_line net (nm_to_mm (inject_Z netlen))
                  (if bool_decide (medlen < inject_Z netlen)%Q then "+" else "")
                  (nm_to_mm (inject_Z netlen - medlen)%Q))
               <$> merge_sort net_le nets),
         Returns (bool_decide (hi - lo < tolerance))).
Proof.
  intros Hlo Hhi.
  assert (nets ≠ []) as Hne.
  { intros ->. destruct Hlo as [Hin _]. by apply elem_of_nil in Hin. }
  unfold test_netclass.
  pose proof (test_netclass_sort_nil nets Hne) as Hs.
  assert ((merge_sort net_le nets).*2 ≡ₚ nets.*2) as Hp
    by (by rewrite merge_sort_Permutation).
  destruct (py_min_spec _ Hs) as (lo' & -> & Hlo').
  destruct (py_max_spec _ Hs) as (hi' & Hhi' & Hmax').
  apply (minimum_of_Permutation _ _ _ Hp) in Hlo'.
  apply (maximum_of_Permutation _ _ _ Hp) in Hmax'.
  rewrite (minimum_of_unique _ _ _ Hlo' Hlo) in *.
  rewrite (maximum_of_unique _ _ _ Hmax' Hhi) in *.
  rewrite (median_perm _ _ Hp).
  destruct (median_returns nets.*2) as (medlen & Hmed).
  { intros Hnil. apply fmap_nil_inv in Hnil. done. }
  exists medlen. split; [done|]. rewrite Hmed. simpl. rewrite Hhi'. done.
Qed.

(** X3: the order in which the caller lists the nets has no effect on what
    [test_netclass] prints, returns, or leaves in the list. *)
Theorem test_netclass_Permutation (netclass : string) (tolerance : Z)
    (nets1 nets2 : list (string * Z)) :
  nets1 ≡ₚ nets2 →
  test_netclass netclass tolerance nets1 = test_netclass netclass tolerance nets2.
Proof.
  intros Hp. unfold test_netclass.
  by rewrite (merge_sort_Permutation_eq net_le nets1 nets2 Hp).
Qed.

Lemma test_netclass_Permutation_witness :
  [("B", 1); ("A", 2); ("C", 4)] ≡ₚ [("A", 2); ("B", 1); ("C", 4)] ∧
  test_netclass "X_LM1" 1000000 [("B", 1); ("A", 2); ("C", 4)]
    = test_netclass "X_LM1" 1000000 [("A", 2); ("B", 1); ("C", 4)].
Proof.
  assert (Hp : [("B", 1); ("A", 2); ("C", 4)]
               ≡ₚ [("A", 2); ("B", 1); ("C", 4)]) by apply perm_swap.
  exact (conj Hp (test_netclass_Permutation "X_LM1" 1000000 _ _ Hp)).
Defined.

(** X5: a tolerance of zero or less is never met, and a verdict "meets"
    stays "meets" under any larger tolerance. *)
Theorem test_netclass_tolerance (netclass : string) (nets : list (string * Z)) :
  nets ≠ [] →
  (∀ tolerance, tolerance ≤ 0 →
     (test_netclass netclass tolerance nets).2 = Returns false) ∧
  (∀ t1 t2, t1 ≤ t2 →
     (test_netclass netclass t1 nets).2 = Returns true →
     (test_netclass netclass t2 nets).2 = Returns true).
Proof.
  intros Hne.
  assert (nets.*2 ≠ []) as Hne2 by (by intros ?%fmap_nil_inv).
  destruct (py_min_spec _ Hne2) as (lo & _ & Hlo).
  destruct (py_max_spec _ Hne2) as (hi & _ & Hhi).
  assert (lo ≤ hi) as Hle by (destruct Hlo as [Hin _]; by apply Hhi).
  split.
  - intros tolerance Htol.
    destruct (test_netclass_spec netclass tolerance nets lo hi Hlo Hhi)
      as (medlen & _ & ->). simpl.
    f_equal. apply bool_decide_eq_false. lia.
  - intros t1 t2 Ht.
    destruct (test_netclass_spec netclass t1 nets lo hi Hlo Hhi)
      as (medlen & _ & ->).
    destruct (test_netclass_spec netclass t2 nets lo hi Hlo Hhi)
      as (medlen' & _ & ->). simpl.
    intros [= Hm%bool_decide_eq_true]. f_equal. apply bool_decide_eq_true. lia.
Qed.

Lemma test_netclass_tolerance_witness :
  [("A", 5000000); ("B", 5300000)] ≠ [] ∧
  (∀ tolerance, tolerance ≤ 0 →
     (test_netclass "CLK_LM0.1" tolerance
        [("A", 5000000); ("B", 5300000)]).2 = Returns false) ∧
  (∀ t1 t2, t1 ≤ t2 →
     (test_netclass "CLK_LM0.1" t1 [("A", 5000000); ("B", 5300000)]).2
       = Returns true →
     (test_netclass "CLK_LM0.1" t2 [("A", 5000000); ("B", 5300000)]).2
       = Returns true).
Proof.
  assert (Hne : [("A", 5000000); ("B", 5300000)] ≠ @nil (string * Z))
    by discriminate.
  exact (conj Hne (test_netclass_tolerance "CLK_LM0.1" _ Hne)).
Defined.

(** ** More on the change-driven loop *)

Lemma test_netclass_meets (netclass : string) (tolerance : Z)
    (nets : list (string * Z)) :
  nets ≠ [] →
  ∃ meets, (test_netclass netclass tolerance nets).2 = Returns meets ∧
           (meets = true ↔ group_meets (tolerance, nets)).
Proof.
  intros Hne.
  assert (nets.*2 ≠ []) as Hne2 by (by intros ?%fmap_nil_inv).
  destruct (py_min_spec _ Hne2) as (lo & _ & Hlo).
  destruct (py_max_spec _ Hne2) as (hi & _ & Hhi).
  destruct (test_netclass_spec netclass tolerance nets lo hi Hlo Hhi)
    as (medlen & _ & ->). simpl.
  eexists. split; [done|]. rewrite bool_decide_eq_true. split.
  - intros Hlt. by exists lo, hi.
  - intros (lo' & hi' & Hlo' & Hhi' & Hlt). simpl in *.
    by rewrite (minimum_of_unique _ _ _ Hlo Hlo'),
               (maximum_of_unique _ _ _ Hhi Hhi').
Qed.

Lemma evaluate_items_allmatches
    (oldprops props : gmap string (Z * list (string * Z)))
    (items : list (string * (Z * list (string * Z)))) (allmatches : bool) :
  (∀ item, item ∈ items →
     props !! item.1 = Some item.2 ∧ Sorted net_le item.2.2 ∧ item.2.2 ≠ []) →
  ∃ b,
    (evaluate_items oldprops items props allmatches).2 = Returns b ∧
    (b = true ↔
     allmatches = true ∧
     ∀ item, item ∈ items → changed oldprops item → group_meets item.2).
Proof.
  revert allmatches.
  induction items as [|[netclass [tolerance nets]] items IH];
    intros allmatches Hitems; simpl.
  - exists allmatches. split; [done|]. split; [|by intros [? _]].
    intros ->. split; [done|]. by intros item ?%elem_of_nil.
  - assert (∀ item, item ∈ items →
              props !! item.1 = Some item.2 ∧ Sorted net_le item.2.2 ∧
              item.2.2 ≠ []) as Hrest
      by (intros item Hin; apply Hitems; by right).
    destruct (Hitems (netclass, (tolerance, nets))) as (Hlookup & Hsorted & Hne);
      [by left|]. simpl in *.
    set (item := (netclass, (tolerance, nets))).
    destruct (decide (changed oldprops item)) as [Hch|Hun].
    + assert (match oldprops !! netclass with
              | Some old => bool_decide (old = (tolerance, nets))
              | None => false
              end = false) as ->.
      { unfold changed in Hch. simpl in Hch.
        destruct (oldprops !! netclass) as [old|]; [|done].
        apply bool_decide_eq_false. congruence. }
      destruct (test_netclass_meets netclass tolerance nets Hne)
        as (meets & Hmeets & Hiff).
      pose proof (test_netclass_nets netclass tolerance nets) as Hnets.
      rewrite (merge_sort_sorted net_le nets Hsorted) in Hnets.
      destruct (test_netclass netclass tolerance nets) as [[nets' out] r].
      simpl in Hmeets, Hnets. subst r nets'.
      rewrite (insert_id props netclass) by done.
      destruct (IH (meets && allmatches) Hrest) as (b & Hb & Hbiff).
      destruct (evaluate_items oldprops items _ (meets && allmatches))
        as [[props' out'] r']. simpl in Hb. subst r'. simpl.
      exists b. split; [done|]. rewrite Hbiff, andb_true_iff, Hiff. split.
      * intros [[Hm Ham] Hall]. split; [done|].
        intros it [->|Hin]%elem_of_cons ?; [done|by apply Hall].
      * intros [Ham Hall]. split; [split; [|done]|].
        -- apply (Hall item); [by left|done].
        -- intros it Hin. apply Hall. by right.
    + assert (match oldprops !! netclass with
              | Some old => bool_decide (old = (tolerance, nets))
              | None => false
              end = true) as ->.
      { unfold changed in Hun. simpl in Hun.
        destruct (oldprops !! netclass) as [old|]; [|by destruct Hun].
        apply bool_decide_eq_true.
        destruct (decide (old = (tolerance, nets))); [done|].
        destruct Hun. congruence. }
      destruct (IH allmatches Hrest) as (b & Hb & Hbiff).
      exists b. split; [done|]. rewrite Hbiff. split.
      * intros [Ham Hall]. split; [done|].
        intros it [->|Hin]%elem_of_cons ?; [done|by apply Hall].
      * intros [Ham Hall]. split; [done|].
        intros it Hin. apply Hall. by right.
Qed.

Lemma filter_all {A} (P : A → Prop) `{!∀ x, Decision (P x)} (l : list A) :
  (∀ x, x ∈ l → P x) → filter P l = l.
Proof.
  induction l as [|x l IH]; intros Hl; [done|].
  rewrite filter_cons_True by (apply Hl; by left).
  f_equal. apply IH. intros y Hy. apply Hl. by right.
Qed.

(** X16: one-shot mode.  With [--once] the loop makes one pass and stops;
    on a board that loads the pass reports every group, and the exit status
    is 0 exactly when every group meets its tolerance. *)
Theorem evaluate_once (tracks : list track)
    (props : gmap string (Z * list (string * Z))) :
  get_board_properties tracks = Returns props →
  ∃ status,
    evaluate true tracks ∅ = (flat_map report (map_to_list props), Exit status) ∧
    (status = false ↔
     ∀ netclass entry, props !! netclass = Some entry → group_meets entry) ∧
    ∀ later, main_loop true (tracks :: later) ∅ = evaluate true tracks ∅.
Proof.
  intros Hprops.
  assert (∀ item, item ∈ map_to_list props →
            props !! item.1 = Some item.2 ∧ Sorted net_le item.2.2 ∧
            item.2.2 ≠ []) as Hitems.
  { intros [netclass [tolerance nets]] Hin%elem_of_map_to_list. simpl.
    split; [done|]. by eapply get_board_properties_entry. }
  destruct (evaluate_items_spec ∅ props (map_to_list props) true Hitems)
    as [b Hspec].
  destruct (evaluate_items_allmatches ∅ props (map_to_list props) true Hitems)
    as (b' & Hb' & Hiff).
  rewrite Hspec in Hb'. injection Hb' as <-.
  rewrite filter_all in Hspec by (intros item _; unfold changed;
    by rewrite lookup_empty).
  assert (evaluate true tracks ∅
          = (flat_map report (map_to_list props), Exit (negb b))) as Hev
    by (unfold evaluate; by rewrite Hprops, Hspec).
  exists (negb b). split; [done|]. split.
  - rewrite negb_false_iff, Hiff. split.
    + intros [_ Hall] netclass entry Hentry.
      apply (Hall (netclass, entry)); [by apply elem_of_map_to_list|].
      unfold changed. by rewrite lookup_empty.
    + intros Hall. split; [done|].
      intros [netclass entry] Hin%elem_of_map_to_list _. by eapply Hall.
  - intros later. simpl. by rewrite Hev.
Qed.

Lemma evaluate_once_witness :
  get_board_properties sample_board = Returns sample_props ∧
  ∃ status,
    evaluate true sample_board ∅
      = (flat_map report (map_to_list sample_props), Exit status) ∧
    (status = false ↔
     ∀ netclass entry,
       sample_props !! netclass = Some entry → group_meets entry) ∧
    ∀ later,
      main_loop true (sample_board :: later) ∅ = evaluate true sample_board ∅.
Proof.
  assert (H : get_board_properties sample_board = Returns sample_props)
    by (vm_compute; reflexivity).
  exact (conj H (evaluate_once _ _ H)).
Defined.

Lemma evaluate_false_not_exit (tracks : list track)
    (oldprops : gmap string (Z * list (string * Z))) (status : bool) :
  (evaluate false tracks oldprops).2 ≠ Exit status.
Proof.
  unfold evaluate. destruct (get_board_properties tracks) as [p|e]; [|done].
  destruct (evaluate_items _ _ _ _) as [[p' out] [b|e]]; done.
Qed.

(** X18: without [--once] the loop never exits by itself, whatever the
    boards are: it stops by an exception or goes on waiting. *)
Theorem main_loop_never_exits (boards : list (list track))
    (oldprops : gmap string (Z * list (string * Z))) (status : bool) :
  (main_loop false boards oldprops).2 ≠ Exit status.
Proof.
  revert oldprops. induction boards as [|tracks later IH]; intros oldprops;
    [done|]. simpl.
  pose proof (evaluate_false_not_exit tracks oldprops status) as Hne.
  destruct (evaluate false tracks oldprops) as [out [s|e|props]]; [done..|].
  specialize (IH props). by destruct (main_loop false later props).
Qed.

(** ** More on the tolerance parser *)

Lemma round_half_even_ge (n d : Z) : n / d ≤ round_half_even n d.
Proof.
  unfold round_half_even. destruct (2 * (n mod d) ?= d); [|lia..].
  destruct (Z.even (n / d)); lia.
Qed.

Lemma Qred_nonneg (q : Q) : 0 ≤ Qnum q → 0 ≤ Qnum (Qred q).
Proof.
  intros Hq. pose proof (Qred_correct q) as Heq. unfold Qeq in Heq.
  destruct (Z.le_gt_cases 0 (Qnum (Qred q))) as [|Hneg]; [done|].
  assert (Qnum (Qred q) * Z.pos (Qden q) < 0) by (apply Z.mul_neg_pos; lia).
  assert (0 ≤ Qnum q * Z.pos (Qden (Qred q))) by (apply Z.mul_nonneg_nonneg; lia).
  lia.
Qed.

Lemma dyadic_nonneg (m e : Z) : 0 ≤ m → 0 ≤ Qnum (dyadic m e).
Proof.
  intros Hm. unfold dyadic. apply Qred_nonneg.
  destruct (0 <=? e); simpl; [|done].
  apply Z.mul_nonneg_nonneg; [done|]. apply Z.pow_nonneg. lia.
Qed.

Lemma b64_round_nonneg (q y : Q) : b64_round q = Fin y → 0 ≤ Qnum y.
Proof.
  unfold b64_round. destruct (Qnum q) as [|n|n]; try by intros [= <-].
  cbv zeta. destruct (_ <=? _); [done|]. intros [= <-].
  apply dyadic_nonneg. etrans; [|apply round_half_even_ge].
  apply Z.div_pos; [|apply Z.mul_pos_pos; [done|apply Z.pow_pos_nonneg; lia]].
  apply Z.mul_nonneg_nonneg; [done|]. apply Z.pow_nonneg. lia.
Qed.

(** X7: a tolerance returned by the parser is never negative. *)
Theorem get_tolerance_nonneg (label : string) (tolerance : Z) :
  get_tolerance label = Returns (Some tolerance) → 0 ≤ tolerance.
Proof.
  unfold get_tolerance. destruct (Re.search LM_pattern label) as [m|]; [|done].
  destruct (py_float _) as [x|]; [|done]. simpl. unfold mm_to_nm.
  destruct (b64_mul x _) as [y|] eqn:Hy; [|done]. simpl. intros [= <-].
  assert (0 ≤ Qnum y) as Hnum.
  { unfold b64_mul in Hy. destruct x as [a|]; [|done].
    by eapply b64_round_nonneg. }
  apply Z.quot_pos; lia.
Qed.

Lemma get_tolerance_nonneg_witness :
  get_tolerance "CLK_LM0.1" = Returns (Some 100000) ∧ 0 ≤ 100000.
Proof.
  assert (H : get_tolerance "CLK_LM0.1" = Returns (Some 100000))
    by (vm_compute; reflexivity).
  exact (conj H (get_tolerance_nonneg _ _ H)).
Defined.

Lemma first_marker_alone (run : list ascii) :
  numeral_run run →
  first_marker (string_of_list_ascii (LM ++ run)) [] run [].
Proof.
  intros Hrun. split; [|split; [by left|split; [by left; left|split; [done|]]]].
  - by rewrite list_ascii_of_string_of_list_ascii, app_nil_r.
  - intros. simpl. lia.
Qed.

Lemma first_marker_CLK_LM4_1_A :
  first_marker "CLK_LM4.1_A" (list_ascii_of_string "CLK_")
    (list_ascii_of_string "4.1") (list_ascii_of_string "_A").
Proof.
  split; [done|]. split; [right; by exists (list_ascii_of_string "CLK")|].
  split; [left; right; by exists (list_ascii_of_string "A")|]. split.
  { split; [done|]. by repeat constructor. }
  intros pre' d' post' Hl _ _ _.
  cbn [list_ascii_of_string] in Hl. unfold LM in Hl.
  peel Hl pre'. simpl. lia.
Qed.

(** X8: the tolerance of a label is read off its leftmost marker alone;
    the segments before and after it have no influence. *)
Theorem get_tolerance_compound (label : string) (pre run post : list ascii) :
  first_marker label pre run post →
  get_tolerance label = get_tolerance (string_of_list_ascii (LM ++ run)).
Proof.
  intros Hfirst. rewrite (get_tolerance_first_marker _ _ _ _ Hfirst).
  destruct Hfirst as (_ & _ & _ & Hrun & _).
  by rewrite (get_tolerance_first_marker _ _ _ _ (first_marker_alone run Hrun)).
Qed.

Lemma get_tolerance_compound_witness :
  first_marker "CLK_LM4.1_A" (list_ascii_of_string "CLK_")
    (list_ascii_of_string "4.1") (list_ascii_of_string "_A") ∧
  get_tolerance "CLK_LM4.1_A" = get_tolerance "LM4.1".
Proof.
  exact (conj first_marker_CLK_LM4_1_A
           (get_tolerance_compound "CLK_LM4.1_A" _ _ _
              first_marker_CLK_LM4_1_A)).
Defined.

Lemma split_period_digits (l : list ascii) :
  forallb is_digit l = true → split_period l = (l, None).
Proof.
  induction l as [|c l IH]; simpl; [done|].
  intros [Hc Hl]%andb_true_iff.
  rewrite bool_decide_eq_false_2 by (by apply digit_not_period).
  by rewrite (IH Hl).
Qed.

Lemma digit_value_range (c : ascii) : is_digit c = true → 0 ≤ digit_value c ≤ 9.
Proof.
  unfold is_digit, digit_value. intros [H1 H2]%andb_true_iff. lia.
Qed.

Lemma digits_fold_nonneg (l : list ascii) (acc : Z) :
  0 ≤ acc → forallb is_digit l = true →
  0 ≤ foldl (fun acc c => 10 * acc + digit_value c) acc l.
Proof.
  revert acc. induction l as [|c l IH]; intros acc Hacc; simpl; [done|].
  intros [Hc Hl]%andb_true_iff. apply IH; [|done].
  pose proof (digit_value_range c Hc). lia.
Qed.

Lemma digits_value_nonneg (l : list ascii) :
  forallb is_digit l = true → 0 ≤ digits_value l.
Proof. by apply digits_fold_nonneg. Qed.

Lemma py_float_digits (run : list ascii) :
  run ≠ [] → forallb is_digit run = true →
  py_float run = Returns (b64_round (inject_Z (digits_value run))).
Proof.
  intros Hne Hd. unfold py_float, decimal_parts.
  rewrite (split_period_digits _ Hd). simpl.
  rewrite app_nil_r, Hd, bool_decide_eq_false_2 by done. simpl.
  unfold decimal_value. by rewrite app_nil_r.
Qed.

(** X9: a tolerance written as a whole number of millimetres is converted
    exactly, as long as its value in nanometres stays below 2^53. *)
Theorem get_tolerance_whole_mm (label : string) (pre run post : list ascii) :
  first_marker label pre run post →
  forallb is_digit run = true →
  digits_value run * 1000000 < 2 ^ 53 →
  get_tolerance label = Returns (Some (digits_value run * 1000000)).
Proof.
  intros Hfirst Hd Hsmall.
  rewrite (get_tolerance_first_marker _ _ _ _ Hfirst).
  destruct Hfirst as (_ & _ & _ & [Hne _] & _).
  pose proof (digits_value_nonneg _ Hd) as Hpos.
  rewrite (py_float_digits _ Hne Hd).
  rewrite b64_round_int_exact by lia. simpl. unfold mm_to_nm, b64_mul.
  change (inject_Z (digits_value run) * (1000000 # 1))%Q
    with (inject_Z (digits_value run * 1000000)).
  rewrite b64_round_int_exact by lia. simpl.
  by rewrite Z.quot_1_r.
Qed.

Lemma get_tolerance_whole_mm_witness :
  first_marker "LM12" [] (list_ascii_of_string "12") [] ∧
  forallb is_digit (list_ascii_of_string "12") = true ∧
  digits_value (list_ascii_of_string "12") * 1000000 < 2 ^ 53 ∧
  get_tolerance "LM12"
    = Returns (Some (digits_value (list_ascii_of_string "12") * 1000000)).
Proof.
  assert (H1 : first_marker "LM12" [] (list_ascii_of_string "12") []).
  { apply (first_marker_alone (list_ascii_of_string "12")).
    split; [done|]. by repeat constructor. }
  assert (H2 : forallb is_digit (list_ascii_of_string "12") = true)
    by reflexivity.
  assert (H3 : digits_value (list_ascii_of_string "12") * 1000000 < 2 ^ 53)
    by reflexivity.
  exact (conj H1 (conj H2 (conj H3
           (get_tolerance_whole_mm "LM12" _ _ _ H1 H2 H3)))).
Defined.

Lemma b64_round_huge (z : Z) : 2 ^ 1024 ≤ z → b64_round (inject_Z z) = Inf.
Proof.
  intros Hz. destruct z as [|n|n]; [done| |done].
  unfold b64_round, inject_Z. cbn [Qnum Qden]. cbv zeta. rewrite ilog2_int.
  assert (1024 ≤ Z.log2 (Z.pos n)) as Hlog by (by apply Z.log2_le_pow2).
  destruct (Z.log2_spec (Z.pos n)) as [Hlo _]; [done|].
  set (k := Z.log2 (Z.pos n)) in *.
  rewrite (Z.max_l (k - 52) (-1074)) by lia.
  rewrite (Z.max_l 0 (- (k - 52))) by lia.
  rewrite (Z.max_r 0 (k - 52)) by lia.
  change (2 ^ 0) with 1. rewrite Z.mul_1_r, Z.mul_1_l.
  assert (0 < 2 ^ (k - 52)) as Hpow by (apply Z.pow_pos_nonneg; lia).
  assert (2 ^ 52 ≤ Z.pos n / 2 ^ (k - 52)) as Hdiv.
  { apply Z.div_le_lower_bound; [done|].
    rewrite Z.mul_comm, <- Z.pow_add_r by lia.
    by replace (52 + (k - 52)) with k by lia. }
  pose proof (round_half_even_ge (Z.pos n) (2 ^ (k - 52))) as Hm.
  destruct (Z.leb_spec (2 ^ 1024)
              (round_half_even (Z.pos n) (2 ^ (k - 52)) * 2 ^ (k - 52)));
    [done|].
  assert (2 ^ 52 * 2 ^ (k - 52) ≤
          round_half_even (Z.pos n) (2 ^ (k - 52)) * 2 ^ (k - 52))
    by (apply Z.mul_le_mono_nonneg_r; lia).
  assert (2 ^ 1024 ≤ 2 ^ 52 * 2 ^ (k - 52)).
  { rewrite <- Z.pow_add_r by lia. apply Z.pow_le_mono_r; lia. }
  lia.
Qed.

(** X10: a whole-number tolerance of 2^1024 millimetres or more (a numeral
    of 309 digits at least) makes the parser raise [OverflowError]. *)
Theorem get_tolerance_overflow (label : string) (pre run post : list ascii) :
  first_marker label pre run post →
  forallb is_digit run = true →
  2 ^ 1024 ≤ digits_value run →
  get_tolerance label = Raises OverflowError.
Proof.
  intros Hfirst Hd Hbig.
  rewrite (get_tolerance_first_marker _ _ _ _ Hfirst).
  destruct Hfirst as (_ & _ & _ & [Hne _] & _).
  rewrite (py_float_digits _ Hne Hd), (b64_round_huge _ Hbig). done.
Qed.

Lemma get_tolerance_overflow_witness :
  first_marker (string_of_list_ascii (LM ++ huge_numeral)) [] huge_numeral [] ∧
  forallb is_digit huge_numeral = true ∧
  2 ^ 1024 ≤ digits_value huge_numeral ∧
  get_tolerance (string_of_list_ascii (LM ++ huge_numeral))
    = Raises OverflowError.
Proof.
  assert (H1 : first_marker (string_of_list_ascii (LM ++ huge_numeral)) []
                 huge_numeral []).
  { apply first_marker_alone. split; [done|].
    apply Forall_cons. split; [done|]. by apply Forall_replicate. }
  assert (H2 : forallb is_digit huge_numeral = true)
    by (vm_compute; reflexivity).
  assert (H3 : 2 ^ 1024 ≤ digits_value huge_numeral)
    by (apply Z.leb_le; vm_compute; reflexivity).
  exact (conj H1 (conj H2 (conj H3
           (get_tolerance_overflow _ _ _ _ H1 H2 H3)))).
Defined.

(** ** The rounding error of the tolerance parser *)

Lemma round_half_even_error (n d : Z) :
  0 < d → - d ≤ 2 * round_half_even n d * d - 2 * n ≤ d.
Proof.
  intros Hd. unfold round_half_even.
  pose proof (Z.div_mod n d ltac:(lia)) as Hn.
  pose proof (Z.mod_pos_bound n d Hd) as Hr.
  set (q := n / d) in *. set (r := n mod d) in *.
  destruct (Z.compare_spec (2 * r) d); [destruct (Z.even q)|..]; nia.
Qed.

Lemma ilog2_lower (n d : positive) :
  0 ≤ ilog2 n d → Z.pos d * 2 ^ ilog2 n d ≤ Z.pos n.
Proof.
  unfold ilog2.
  destruct (Z.log2_spec (Z.pos n)) as [Hn _]; [done|].
  destruct (Z.log2_spec (Z.pos d)) as [_ Hd]; [done|].
  pose proof (Z.log2_nonneg (Z.pos n)) as Ha.
  pose proof (Z.log2_nonneg (Z.pos d)) as Hb.
  set (a := Z.log2 (Z.pos n)) in *. set (b := Z.log2 (Z.pos d)) in *.
  destruct (Z.ltb_spec (Z.pos n * 2 ^ Z.max 0 (- (a - b)))
                       (Z.pos d * 2 ^ Z.max 0 (a - b))) as [_|Hge]; intros Hk.
  - replace a with ((a - b - 1) + Z.succ b) in Hn by lia.
    rewrite Z.pow_add_r in Hn by lia.
    assert (0 < 2 ^ (a - b - 1)) by (apply Z.pow_pos_nonneg; lia).
    nia.
  - rewrite (Z.max_l 0 (- (a - b))), (Z.max_r 0 (a - b)) in Hge by lia.
    change (2 ^ 0) with 1 in Hge. lia.
Qed.

Lemma ilog2_upper (n d : positive) :
  Z.pos n * 2 ^ Z.max 0 (- (ilog2 n d + 1))
  < Z.pos d * 2 ^ Z.max 0 (ilog2 n d + 1).
Proof.
  unfold ilog2.
  destruct (Z.log2_spec (Z.pos n)) as [_ Hn]; [done|].
  destruct (Z.log2_spec (Z.pos d)) as [Hd _]; [done|].
  pose proof (Z.log2_nonneg (Z.pos n)) as Ha.
  pose proof (Z.log2_nonneg (Z.pos d)) as Hb.
  set (a := Z.log2 (Z.pos n)) in *. set (b := Z.log2 (Z.pos d)) in *.
  destruct (Z.ltb_spec (Z.pos n * 2 ^ Z.max 0 (- (a - b)))
                       (Z.pos d * 2 ^ Z.max 0 (a - b))) as [Hlt|_].
  - by replace (a - b - 1 + 1) with (a - b) by lia.
  - destruct (Z.le_gt_cases 0 (a - b + 1)) as [Hk|Hk].
    + rewrite (Z.max_l 0 (- _)), (Z.max_r 0 (a - b + 1)) by lia.
      change (2 ^ 0) with 1. rewrite Z.mul_1_r.
      replace (Z.succ a) with ((a - b + 1) + b) in Hn by lia.
      rewrite Z.pow_add_r in Hn by lia.
      assert (0 < 2 ^ (a - b + 1)) by (apply Z.pow_pos_nonneg; lia).
      nia.
    + rewrite (Z.max_r 0 (- _)), (Z.max_l 0 (a - b + 1)) by lia.
      change (2 ^ 0) with 1. rewrite Z.mul_1_r.
      replace b with (Z.succ a + - (a - b + 1)) in Hd by lia.
      rewrite Z.pow_add_r in Hd by lia.
      assert (0 < 2 ^ (- (a - b + 1))) by (apply Z.pow_pos_nonneg; lia).
      nia.
Qed.

Lemma dyadic_Qeq (m e : Z) :
  e ≤ 0 → (dyadic m e == m # Z.to_pos (2 ^ (- e)))%Q.
Proof.
  intros He. unfold dyadic. rewrite Qred_correct.
  destruct (Z.leb_spec 0 e); [|done].
  assert (e = 0) as -> by lia. simpl. unfold Qeq. simpl. lia.
Qed.

(** Rounding a value below [2^K], [K ≤ 53], moves it by at most
    [2^(K-54)]: half a unit in the last of 53 places. *)
Lemma b64_round_error (q : Q) (K : Z) :
  0 ≤ K ≤ 53 → (0 <= q)%Q → (q < inject_Z (2 ^ K))%Q →
  ∃ y, b64_round q = Fin y ∧ (0 <= y)%Q ∧
       (Qabs (y - q) <= 1 # Z.to_pos (2 ^ (54 - K)))%Q.
Proof.
  intros HK Hq0 HqK. destruct q as [[|n|n] d].
  - exists 0%Q. split; [done|]. split; [done|]. by vm_compute.
  - unfold b64_round. cbn [Qnum Qden]. cbv zeta.
    assert (Z.pos n < Z.pos d * 2 ^ K) as Hn
      by (unfold Qlt in HqK; simpl in HqK; lia).
    set (L := ilog2 n d).
    assert (L < K) as HL.
    { destruct (Z.lt_ge_cases L K) as [|Hge]; [done|].
      pose proof (ilog2_lower n d ltac:(fold L; lia)) as Hlow. fold L in Hlow.
      assert (2 ^ K ≤ 2 ^ L) by (apply Z.pow_le_mono_r; lia).
      nia. }
    set (e := Z.max (L - 52) (-1074)).
    assert (e ≤ 0 ∧ L - 52 ≤ e ∧ e ≤ K - 53) as (He0 & HeL & HeK)
      by (unfold e; lia).
    rewrite (Z.max_r 0 (- e)), (Z.max_l 0 e) by lia.
    change (2 ^ 0) with 1. rewrite !Z.mul_1_r.
    set (P := 2 ^ (- e)).
    assert (0 < P) as HP by (apply Z.pow_pos_nonneg; lia).
    pose proof (round_half_even_error (Z.pos n * P) (Z.pos d) ltac:(lia)) as Hm.
    pose proof (round_half_even_ge (Z.pos n * P) (Z.pos d)) as Hm0.
    assert (0 ≤ Z.pos n * P / Z.pos d) as Hdiv
      by (apply Z.div_pos; nia).
    set (m := round_half_even (Z.pos n * P) (Z.pos d)) in *.
    assert (Z.pos n * P < Z.pos d * 2 ^ 53) as HA.
    { pose proof (ilog2_upper n d) as Hup. fold L in Hup.
      assert (P * 2 ^ (52 - L + e) = 2 ^ (52 - L)) as HPe.
      { unfold P. rewrite <- Z.pow_add_r by lia. f_equal. lia. }
      assert (0 < 2 ^ (52 - L + e)) by (apply Z.pow_pos_nonneg; lia).
      assert (Z.pos n * P ≤ Z.pos n * 2 ^ (52 - L)) by nia.
      destruct (Z.le_gt_cases 0 (L + 1)) as [Hk|Hk].
      - rewrite (Z.max_l 0 (- _)), (Z.max_r 0 (L + 1)) in Hup by lia.
        change (2 ^ 0) with 1 in Hup. rewrite Z.mul_1_r in Hup.
        assert (2 ^ (L + 1) * 2 ^ (52 - L) = 2 ^ 53) as Hpow
          by (rewrite <- Z.pow_add_r by lia; f_equal; lia).
        assert (0 < 2 ^ (52 - L)) by (apply Z.pow_pos_nonneg; lia).
        nia.
      - rewrite (Z.max_r 0 (- _)), (Z.max_l 0 (L + 1)) in Hup by lia.
        change (2 ^ 0) with 1 in Hup. rewrite Z.mul_1_r in Hup.
        assert (2 ^ (- (L + 1)) * 2 ^ 53 = 2 ^ (52 - L)) as Hpow
          by (rewrite <- Z.pow_add_r by lia; f_equal; lia).
        nia. }
    assert (m ≤ 2 ^ 53) as Hm53 by nia.
    destruct (Z.leb_spec (2 ^ 1024) m) as [Hbig|_].
    { assert (2 ^ 53 < 2 ^ 1024) by (apply Z.pow_lt_mono_r; lia). lia. }
    exists (dyadic m e). split; [done|]. split.
    + rewrite (dyadic_Qeq m e He0). unfold Qle. simpl. lia.
    + rewrite (dyadic_Qeq m e He0). fold P.
      assert (2 ^ (54 - K) ≤ 2 * P) as HPK.
      { unfold P. change (2 * 2 ^ (- e)) with (2 ^ 1 * 2 ^ (- e)).
        rewrite <- Z.pow_add_r by lia. apply Z.pow_le_mono_r; lia. }
      assert (0 < 2 ^ (54 - K)) as HQ by (apply Z.pow_pos_nonneg; lia).
      unfold Qle, Qabs, Qminus, Qplus, Qopp. cbn [Qnum Qden].
      rewrite !Pos2Z.inj_mul, !Z2Pos.id by lia.
      set (D := m * Z.pos d + - Z.pos n * P).
      assert (- Z.pos d ≤ 2 * D ≤ Z.pos d) by (unfold D; lia).
      assert (2 * Z.abs D ≤ Z.pos d) by lia.
      pose proof (Z.abs_nonneg D). nia.
  - unfold Qle in Hq0. simpl in Hq0. lia.
Qed.

Lemma decimal_parts_digits (s i f : list ascii) :
  decimal_parts s = Some (i, f) → forallb is_digit (i ++ f) = true.
Proof.
  unfold decimal_parts. destruct (split_period s) as [i0 f0].
  destruct (_ && _) eqn:Hok; [|done]. intros [= -> <-].
  apply andb_true_iff in Hok as [[Hi Hf]%andb_true_iff _].
  rewrite forallb_app. by rewrite Hi, Hf.
Qed.

Lemma py_int_floor (y : Q) (lo : Z) :
  (0 <= y)%Q → (inject_Z lo - 1 < y)%Q → (y < inject_Z lo + 1)%Q →
  py_int (Fin y) = Returns lo ∨ py_int (Fin y) = Returns (lo - 1).
Proof.
  intros Hy0 Hlo Hhi. simpl.
  assert (0 ≤ Qnum y) as Hnum by (unfold Qle in Hy0; simpl in Hy0; lia).
  rewrite Z.quot_div_nonneg by lia.
  replace (Qnum y / Z.pos (Qden y)) with (Qfloor y) by (by destruct y).
  pose proof (Qfloor_le y) as Hf1. pose proof (Qlt_floor y) as Hf2.
  assert (inject_Z (Qfloor y) < inject_Z (lo + 1))%Q as H1
    by (rewrite inject_Z_plus; change (inject_Z 1) with 1%Q; lra).
  assert (inject_Z (lo - 2) < inject_Z (Qfloor y))%Q as H2.
  { rewrite inject_Z_plus in Hf2.
    replace (lo - 2) with (lo + -2) by lia. rewrite inject_Z_plus.
    change (inject_Z 1) with 1%Q in Hf2. change (inject_Z (-2)) with (-2)%Q.
    lra. }
  rewrite <- Zlt_Qlt in H1, H2.
  assert (Qfloor y = lo ∨ Qfloor y = lo - 1) as [->| ->] by lia; auto.
Qed.

(** X11: the parser is accurate to one nanometre.  When the numeral of the
    leftmost marker is a decimal number that denotes a whole number [N] of
    nanometres below 2^52, the tolerance returned is [N] or [N - 1]. *)
Theorem get_tolerance_within_one (label : string)
    (pre run post i f : list ascii) (N : Z) :
  first_marker label pre run post →
  decimal_parts run = Some (i, f) →
  (decimal_value i f * inject_Z 1000000 == inject_Z N)%Q →
  N < 2 ^ 52 →
  get_tolerance label = Returns (Some N) ∨
  get_tolerance label = Returns (Some (N - 1)).
Proof.
  intros Hfirst Hparts HN Hsmall.
  rewrite (get_tolerance_first_marker _ _ _ _ Hfirst).
  unfold py_float. rewrite Hparts. simpl.
  set (v := decimal_value i f) in *.
  assert (0 <= v)%Q as Hv0.
  { unfold v, decimal_value, Qle. simpl. rewrite Z.mul_1_r.
    apply digits_value_nonneg. by eapply decimal_parts_digits. }
  assert (inject_Z N < 4503599627370496)%Q as HNq
    by (change 4503599627370496%Q with (inject_Z (2 ^ 52)); by rewrite <- Zlt_Qlt).
  change (inject_Z 1000000) with 1000000%Q in HN.
  destruct (b64_round_error v 33) as (x & -> & Hx0 & Hx); [lia|done| |].
  { change (inject_Z (2 ^ 33)) with 8589934592%Q. lra. }
  change (Z.to_pos (2 ^ (54 - 33))) with 2097152%positive in Hx.
  apply Qabs_Qle_condition in Hx as [Hx1 Hx2].
  unfold mm_to_nm, b64_mul.
  destruct (b64_round_error (x * (1000000 # 1)) 53) as (y & -> & Hy0 & Hy);
    [lia| | |].
  { change (1000000 # 1) with 1000000%Q. lra. }
  { change (inject_Z (2 ^ 53)) with 9007199254740992%Q.
    change (1000000 # 1) with 1000000%Q.
    change (- (1 # 2097152))%Q with (- 1 # 2097152)%Q in Hx1. lra. }
  change (Z.to_pos (2 ^ (54 - 53))) with 2%positive in Hy.
  apply Qabs_Qle_condition in Hy as [Hy1 Hy2].
  change (1000000 # 1) with 1000000%Q in Hy1, Hy2.
  destruct (py_int_floor y N Hy0) as [-> | ->]; [lra|lra|by left|by right].
Qed.

Lemma get_tolerance_within_one_witness :
  first_marker "CLK_LM4.1_A" (list_ascii_of_string "CLK_")
    (list_ascii_of_string "4.1") (list_ascii_of_string "_A") ∧
  decimal_parts (list_ascii_of_string "4.1")
    = Some (list_ascii_of_string "4", list_ascii_of_string "1") ∧
  (decimal_value (list_ascii_of_string "4") (list_ascii_of_string "1")
   * inject_Z 1000000 == inject_Z 4100000)%Q ∧
  4100000 < 2 ^ 52 ∧
  (get_tolerance "CLK_LM4.1_A" = Returns (Some 4100000) ∨
   get_tolerance "CLK_LM4.1_A" = Returns (Some (4100000 - 1))).
Proof.
  assert (H2 : decimal_parts (list_ascii_of_string "4.1")
               = Some (list_ascii_of_string "4", list_ascii_of_string "1"))
    by reflexivity.
  assert (H3 : (decimal_value (list_ascii_of_string "4")
                  (list_ascii_of_string "1")
                * inject_Z 1000000 == inject_Z 4100000)%Q)
    by reflexivity.
  assert (H4 : 4100000 < 2 ^ 52) by reflexivity.
  exact (conj first_marker_CLK_LM4_1_A (conj H2 (conj H3 (conj H4
           (get_tolerance_within_one "CLK_LM4.1_A" _ _ _ _ _ _
              first_marker_CLK_LM4_1_A H2 H3 H4))))).
Defined.

(** ** More on the net aggregator *)

Lemma board_loop_raises (tracks : list track) (netclasses : list string)
    (acc : gmap string (Z * list (string * Z))) (e : exn) :
  board_loop tracks netclasses acc = Raises e →
  ∃ nc, nc ∈ netclasses ∧ get_tolerance nc = Raises e.
Proof.
  revert acc. induction netclasses as [|netclass rest IH]; intros acc; simpl;
    [done|].
  destruct (get_tolerance netclass) as [t|e'] eqn:Ht; simpl.
  - intros Hloop.
    assert (∃ acc', board_loop tracks rest acc' = Raises e) as [acc' Hloop']
      by (destruct t; eauto).
    destruct (IH _ Hloop') as (nc & Hin & Hnc). exists nc. split; [by right|done].
  - intros [= ->]. exists netclass. split; [by left|done].
Qed.

Lemma elem_of_netclasses (tracks : list track) (nc : string) :
  nc ∈ elements (list_to_set (GetClassName <$> tracks) : gset string) ↔
  ∃ t, t ∈ tracks ∧ GetClassName t = nc.
Proof.
  rewrite elem_of_elements, elem_of_list_to_set, list_elem_of_fmap.
  split; [intros (t & -> & ?)|intros (t & ? & <-)]; eauto.
Qed.

(** X12: once pcbnew has yielded the tracks of the board, the rest of
    [get_board_properties] (l.96-108) raises exactly when the netclass of
    some track has a marker that [get_tolerance] rejects, and the exception
    that comes out is one [get_tolerance] raises for the netclass of some
    track. *)
Theorem get_board_properties_raises (tracks : list track) :
  ((∃ e, get_board_properties tracks = Raises e) ↔
   ∃ t e, t ∈ tracks ∧ get_tolerance (GetClassName t) = Raises e) ∧
  ∀ e, get_board_properties tracks = Raises e →
       ∃ t, t ∈ tracks ∧ get_tolerance (GetClassName t) = Raises e.
Proof.
  assert (∀ e, get_board_properties tracks = Raises e →
            ∃ t, t ∈ tracks ∧ get_tolerance (GetClassName t) = Raises e) as Hfwd.
  { intros e (nc & Hin & Hnc)%board_loop_raises.
    apply elem_of_netclasses in Hin as (t & Ht & <-). eauto. }
  split; [|done]. split.
  - intros [e He]. destruct (Hfwd e He) as (t & ? & ?). eauto.
  - intros (t & e & Ht & He).
    destruct (get_board_properties tracks) as [props|e'] eqn:Hprops; [|eauto].
    unfold get_board_properties in Hprops.
    destruct (board_loop_spec _ _ _ _ Hprops (GetClassName t)) as [Hin _].
    destruct Hin as (t' & Ht' & _); [apply elem_of_netclasses; eauto|].
    congruence.
Qed.

(** X13: the mapping has an entry for exactly the netclasses that some
    track belongs to and that carry a tolerance, and the entry holds the
    tolerance that [get_tolerance] gives for the name. *)
Theorem get_board_properties_groups (tracks : list track)
    (props : gmap string (Z * list (string * Z))) (netclass : string) :
  get_board_properties tracks = Returns props →
  (is_Some (props !! netclass) ↔
   (∃ t, t ∈ tracks ∧ GetClassName t = netclass) ∧
   ∃ tolerance, get_tolerance netclass = Returns (Some tolerance)) ∧
  ∀ tolerance nets,
    props !! netclass = Some (tolerance, nets) →
    get_tolerance netclass = Returns (Some tolerance).
Proof.
  intros Hprops. split.
  - split.
    + intros [v Hv].
      apply (get_board_properties_lookup _ _ _ _ Hprops) in Hv
        as [Ht (tol & Htol & _)]. eauto.
    + intros [Ht [tol Htol]]. eexists.
      apply (get_board_properties_lookup _ _ _ _ Hprops). eauto.
  - intros tolerance nets Hv.
    apply (get_board_properties_lookup _ _ _ _ Hprops) in Hv
      as [_ (tol & Htol & Hentry)].
    unfold netclass_entry in Hentry. by injection Hentry as -> _.
Qed.

Lemma get_board_properties_groups_witness :
  get_board_properties sample_board = Returns sample_props ∧
  (is_Some (sample_props !! "D_LM1.2") ↔
   (∃ t, t ∈ sample_board ∧ GetClassName t = "D_LM1.2") ∧
   ∃ tolerance, get_tolerance "D_LM1.2" = Returns (Some tolerance)) ∧
  ∀ tolerance nets,
    sample_props !! "D_LM1.2" = Some (tolerance, nets) →
    get_tolerance "D_LM1.2" = Returns (Some tolerance).
Proof.
  assert (H : get_board_properties sample_board = Returns sample_props)
    by (vm_compute; reflexivity).
  exact (conj H (get_board_properties_groups _ _ "D_LM1.2" H)).
Defined.

Lemma sum_fmap_cons {A} (f : A → Z) (a : A) (l : list A) :
  sum (f <$> a :: l) = f a + sum (f <$> l).
Proof. by rewrite fmap_cons, sum_cons. Qed.

Lemma sum_add {A} (f g : A → Z) (l : list A) :
  sum ((fun a => f a + g a) <$> l) = sum (f <$> l) + sum (g <$> l).
Proof.
  induction l as [|a l IH]; [done|]. rewrite !sum_fmap_cons, IH. lia.
Qed.

Lemma sum_indicator (P : Prop) `{!Decision P} (x : string) (v : Z)
    (names : list string) :
  NoDup names →
  sum ((fun n => if decide (P ∧ x = n) then v else 0) <$> names)
  = if decide (P ∧ x ∈ names) then v else 0.
Proof.
  induction 1 as [|n names Hnotin _ IH]; [by rewrite decide_False by
    (intros [_ ?%elem_of_nil]; done)|].
  rewrite sum_fmap_cons, IH.
  destruct (decide (P ∧ x = n)) as [[HP ->]|Hno].
  - rewrite decide_False by (by intros [_ ?]).
    rewrite decide_True by (split; [done|by left]). lia.
  - destruct (decide (P ∧ x ∈ names)) as [[HP Hin]|Hno'].
    + rewrite decide_True by (split; [done|by right]). lia.
    + rewrite decide_False; [lia|].
      intros [HP [->|Hin]%elem_of_cons]; [by apply Hno|by apply Hno'].
Qed.

Lemma sum_total_length_names (netclass : string) (tracks : list track)
    (names : list string) :
  NoDup names →
  (∀ t, t ∈ tracks → GetClassName t = netclass → GetNetname t ∈ names) →
  sum ((fun n => total_length netclass n tracks) <$> names)
  = class_length netclass tracks.
Proof.
  intros Hnd. induction tracks as [|t tracks IH]; intros Hall; simpl.
  - clear. induction names as [|n names IH]; [done|].
    by rewrite sum_fmap_cons, IH.
  - rewrite (sum_add
      (fun n => if decide (GetClassName t = netclass ∧ GetNetname t = n)
                then GetLength t else 0)
      (fun n => total_length netclass n tracks)).
    rewrite IH by (intros t' Ht'; apply Hall; by right).
    rewrite (sum_indicator _ _ _ _ Hnd). f_equal.
    destruct (decide (GetClassName t = netclass)) as [Hc|Hc].
    + rewrite decide_True; [done|]. split; [done|]. apply Hall; [by left|done].
    + by rewrite decide_False by (by intros [? _]).
Qed.

(** X14: within a group no length is lost or counted twice: the lengths
    recorded for its nets add up to the total length of the tracks of the
    netclass. *)
Theorem get_board_properties_conserves (tracks : list track)
    (props : gmap string (Z * list (string * Z))) (netclass : string)
    (tolerance : Z) (nets : list (string * Z)) :
  get_board_properties tracks = Returns props →
  props !! netclass = Some (tolerance, nets) →
  sum nets.*2 = class_length netclass tracks.
Proof.
  intros Hprops Hnc.
  apply (get_board_properties_lookup _ _ _ _ Hprops) in Hnc
    as [_ (tol & _ & Hentry)].
  unfold netclass_entry in Hentry. injection Hentry as _ ->.
  set (names := merge_sort string_le _).
  rewrite <- list_fmap_compose.
  rewrite (list_fmap_ext _ (fun n => total_length netclass n tracks) names)
    by (intros i n _; simpl; apply sum_total_length).
  apply sum_total_length_names.
  - unfold names. rewrite merge_sort_Permutation. apply NoDup_elements.
  - intros t Ht Hc. unfold names.
    rewrite merge_sort_Permutation, elem_of_elements, elem_of_list_to_set.
    apply list_elem_of_fmap. exists t. split; [done|].
    by apply list_elem_of_filter.
Qed.

Lemma get_board_properties_conserves_witness :
  get_board_properties sample_board = Returns sample_props ∧
  sample_props !! "CLK_LM0.1" = Some (100000, [("A", 7); ("B", 16)]) ∧
  sum [("A", 7); ("B", 16)].*2 = class_length "CLK_LM0.1" sample_board.
Proof.
  assert (H1 : get_board_properties sample_board = Returns sample_props)
    by (vm_compute; reflexivity).
  assert (H2 : sample_props !! "CLK_LM0.1"
                 = Some (100000, [("A", 7); ("B", 16)]))
    by (vm_compute; reflexivity).
  exact (conj H1 (conj H2
           (get_board_properties_conserves _ _ _ _ _ H1 H2))).
Defined.

Lemma total_length_Permutation (netclass net : string) (tracks1 tracks2 : list track) :
  tracks1 ≡ₚ tracks2 →
  total_length netclass net tracks1 = total_length netclass net tracks2.
Proof. induction 1; simpl; lia. Qed.

Lemma netclass_entry_Permutation (tracks1 tracks2 : list track)
    (netclass : string) (tolerance : Z) :
  tracks1 ≡ₚ tracks2 →
  netclass_entry tracks1 netclass tolerance
  = netclass_entry tracks2 netclass tolerance.
Proof.
  intros Hp. unfold netclass_entry. f_equal.
  assert ((list_to_set (GetNetname <$>
             filter (fun t => GetClassName t = netclass) tracks1) : gset string)
          = list_to_set (GetNetname <$>
             filter (fun t => GetClassName t = netclass) tracks2)) as ->.
  { apply set_eq. intros n. rewrite !elem_of_list_to_set. by rewrite Hp. }
  apply list_fmap_ext. intros _ n _. f_equal.
  rewrite !sum_total_length. by apply total_length_Permutation.
Qed.

Lemma board_loop_Permutation (tracks1 tracks2 : list track)
    (netclasses : list string) (acc : gmap string (Z * list (string * Z))) :
  tracks1 ≡ₚ tracks2 →
  board_loop tracks1 netclasses acc = board_loop tracks2 netclasses acc.
Proof.
  intros Hp. revert acc. induction netclasses as [|nc rest IH]; intros acc;
    simpl; [done|].
  destruct (get_tolerance nc) as [[tol|]|e]; simpl; [|done..].
  by rewrite (netclass_entry_Permutation _ _ _ _ Hp).
Qed.

(** X15: the mapping does not depend on the order in which the board
    yields its tracks. *)
Theorem get_board_properties_Permutation (tracks1 tracks2 : list track)
    (props : gmap string (Z * list (string * Z))) :
  tracks1 ≡ₚ tracks2 →
  get_board_properties tracks1 = Returns props →
  get_board_properties tracks2 = Returns props.
Proof.
  intros Hp <-. unfold get_board_properties.
  assert ((list_to_set (GetClassName <$> tracks2) : gset string)
          = list_to_set (GetClassName <$> tracks1)) as ->.
  { apply set_eq. intros n. rewrite !elem_of_list_to_set. by rewrite Hp. }
  symmetry. by apply board_loop_Permutation.
Qed.

Lemma get_board_properties_Permutation_witness :
  sample_board ≡ₚ reverse sample_board ∧
  get_board_properties sample_board = Returns sample_props ∧
  get_board_properties (reverse sample_board) = Returns sample_props.
Proof.
  assert (H1 : sample_board ≡ₚ reverse sample_board)
    by (symmetry; apply reverse_Permutation).
  assert (H2 : get_board_properties sample_board = Returns sample_props)
    by (vm_compute; reflexivity).
  exact (conj H1 (conj H2
           (get_board_properties_Permutation _ _ _ H1 H2))).
Defined.

(** * Floats out of range, and the board file *)

(** ** The range of binary64 *)

(** A value below [2^K], [K ≤ 1023], rounds to a float, and to one that is
    not above [2^K]. *)
Lemma b64_round_finite (q : Q) (K : Z) :
  0 ≤ K ≤ 1023 → (0 <= q)%Q → (q < inject_Z (2 ^ K))%Q →
  ∃ y, b64_round q = Fin y ∧ (0 <= y)%Q ∧ (y <= inject_Z (2 ^ K))%Q.
Proof.
  intros HK Hq0 HqK. destruct q as [[|n|n] d].
  - exists 0%Q. split; [done|]. split; [done|].
    unfold Qle. simpl. assert (0 < 2 ^ K) by (apply Z.pow_pos_nonneg; lia). lia.
  - unfold b64_round. cbn [Qnum Qden]. cbv zeta.
    assert (Z.pos n < Z.pos d * 2 ^ K) as Hn
      by (unfold Qlt in HqK; simpl in HqK; lia).
    set (L := ilog2 n d).
    assert (L < K) as HL.
    { destruct (Z.lt_ge_cases L K) as [|Hge]; [done|].
      pose proof (ilog2_lower n d ltac:(fold L; lia)) as Hlow. fold L in Hlow.
      assert (2 ^ K ≤ 2 ^ L) by (apply Z.pow_le_mono_r; lia).
      nia. }
    set (e := Z.max (L - 52) (-1074)).
    assert (L - 52 ≤ e ∧ e ≤ Z.max (K - 53) (-1074)) as (HeL & HeK)
      by (unfold e; lia).
    assert (0 < 2 ^ K) as HpK by (apply Z.pow_pos_nonneg; lia).
    destruct (Z.le_gt_cases e 0) as [He0|He0].
    + rewrite (Z.max_r 0 (- e)), (Z.max_l 0 e) by lia.
      change (2 ^ 0) with 1. rewrite !Z.mul_1_r.
      set (P := 2 ^ (- e)).
      assert (0 < P) as HP by (apply Z.pow_pos_nonneg; lia).
      pose proof (round_half_even_error (Z.pos n * P) (Z.pos d) ltac:(lia)) as Hm.
      pose proof (round_half_even_ge (Z.pos n * P) (Z.pos d)) as Hm0.
      assert (0 ≤ Z.pos n * P / Z.pos d) as Hdiv by (apply Z.div_pos; nia).
      set (m := round_half_even (Z.pos n * P) (Z.pos d)) in *.
      assert (Z.pos n * P < Z.pos d * 2 ^ 53) as HA.
      { pose proof (ilog2_upper n d) as Hup. fold L in Hup.
        assert (P * 2 ^ (52 - L + e) = 2 ^ (52 - L)) as HPe.
        { unfold P. rewrite <- Z.pow_add_r by lia. f_equal. lia. }
        assert (0 < 2 ^ (52 - L + e)) by (apply Z.pow_pos_nonneg; lia).
        assert (Z.pos n * P ≤ Z.pos n * 2 ^ (52 - L)) by nia.
        destruct (Z.le_gt_cases 0 (L + 1)) as [Hk|Hk].
        - rewrite (Z.max_l 0 (- _)), (Z.max_r 0 (L + 1)) in Hup by lia.
          change (2 ^ 0) with 1 in Hup. rewrite Z.mul_1_r in Hup.
          assert (2 ^ (L + 1) * 2 ^ (52 - L) = 2 ^ 53) as Hpow
            by (rewrite <- Z.pow_add_r by lia; f_equal; lia).
          assert (0 < 2 ^ (52 - L)) by (apply Z.pow_pos_nonneg; lia).
          nia.
        - rewrite (Z.max_r 0 (- _)), (Z.max_l 0 (L + 1)) in Hup by lia.
          change (2 ^ 0) with 1 in Hup. rewrite Z.mul_1_r in Hup.
          assert (2 ^ (- (L + 1)) * 2 ^ 53 = 2 ^ (52 - L)) as Hpow
            by (rewrite <- Z.pow_add_r by lia; f_equal; lia).
          nia. }
      assert (m ≤ 2 ^ 53) as Hm53 by nia.
      assert (m ≤ 2 ^ K * P) as HmK by nia.
      destruct (Z.leb_spec (2 ^ 1024) m) as [Hbig|_].
      { assert (2 ^ 53 < 2 ^ 1024) by (apply Z.pow_lt_mono_r; lia). lia. }
      exists (dyadic m e). split; [done|].
      rewrite (dyadic_Qeq m e He0). fold P.
      split; unfold Qle; simpl; rewrite ?Z2Pos.id by lia; lia.
    + rewrite (Z.max_l 0 (- e)), (Z.max_r 0 e) by lia.
      change (2 ^ 0) with 1. rewrite !Z.mul_1_r.
      set (P := 2 ^ e).
      assert (0 < P) as HP by (apply Z.pow_pos_nonneg; lia).
      assert (P * 2 ^ (K - e) = 2 ^ K) as HPK
        by (unfold P; rewrite <- Z.pow_add_r by lia; f_equal; lia).
      assert (0 < 2 ^ (K - e)) as HKe by (apply Z.pow_pos_nonneg; lia).
      pose proof (round_half_even_error (Z.pos n) (Z.pos d * P) ltac:(nia)) as Hm.
      pose proof (round_half_even_ge (Z.pos n) (Z.pos d * P)) as Hm0.
      assert (0 ≤ Z.pos n / (Z.pos d * P)) as Hdiv by (apply Z.div_pos; nia).
      set (m := round_half_even (Z.pos n) (Z.pos d * P)) in *.
      assert (m ≤ 2 ^ (K - e)) as HmK.
      { assert (0 < Z.pos d * P) as HB by nia.
        assert (Z.pos n < Z.pos d * P * 2 ^ (K - e)) as Hn' by nia.
        assert (2 * m * (Z.pos d * P) < (2 * 2 ^ (K - e) + 1) * (Z.pos d * P))
          as Hlt by nia.
        apply Z.mul_lt_mono_pos_r in Hlt; [lia|done]. }
      assert (m * P ≤ 2 ^ K) as HmP by nia.
      destruct (Z.leb_spec (2 ^ 1024) (m * P)) as [Hbig|_].
      { assert (2 ^ K < 2 ^ 1024) by (apply Z.pow_lt_mono_r; lia). lia. }
      exists (dyadic m e). split; [done|].
      unfold dyadic. rewrite Qred_correct.
      destruct (Z.leb_spec 0 e); [|lia]. fold P.
      split; unfold Qle; simpl; nia.
  - unfold Qle in Hq0. simpl in Hq0. lia.
Qed.

(** From [2^1024] on a value rounds to infinity. *)
Lemma b64_round_Inf (q : Q) :
  (inject_Z (2 ^ 1024) <= q)%Q → b64_round q = Inf.
Proof.
  intros Hq. destruct q as [[|n|n] d];
    [unfold Qle in Hq; simpl in Hq; lia| |unfold Qle in Hq; simpl in Hq; lia].
  unfold b64_round. cbn [Qnum Qden]. cbv zeta.
  assert (Z.pos d * 2 ^ 1024 ≤ Z.pos n) as Hn
    by (unfold Qle in Hq; simpl in Hq; lia).
  set (L := ilog2 n d).
  assert (1024 ≤ L) as HL.
  { destruct (Z.le_gt_cases 1024 L) as [|Hlt]; [done|].
    pose proof (ilog2_upper n d) as Hup. fold L in Hup.
    destruct (Z.le_gt_cases 0 (L + 1)) as [Hk|Hk].
    - rewrite (Z.max_l 0 (- _)), (Z.max_r 0 (L + 1)) in Hup by lia.
      change (2 ^ 0) with 1 in Hup. rewrite Z.mul_1_r in Hup.
      assert (2 ^ (L + 1) ≤ 2 ^ 1024) by (apply Z.pow_le_mono_r; lia).
      nia.
    - rewrite (Z.max_r 0 (- _)), (Z.max_l 0 (L + 1)) in Hup by lia.
      change (2 ^ 0) with 1 in Hup. rewrite Z.mul_1_r in Hup.
      assert (0 < 2 ^ (- (L + 1))) by (apply Z.pow_pos_nonneg; lia).
      assert (0 < 2 ^ 1024) by (apply Z.pow_pos_nonneg; lia).
      nia. }
  pose proof (ilog2_lower n d ltac:(fold L; lia)) as Hlow. fold L in Hlow.
  rewrite (Z.max_l (L - 52) (-1074)) by lia.
  rewrite (Z.max_l 0 (- (L - 52))), (Z.max_r 0 (L - 52)) by lia.
  change (2 ^ 0) with 1. rewrite Z.mul_1_r.
  set (P := 2 ^ (L - 52)).
  assert (0 < P) as HP by (apply Z.pow_pos_nonneg; lia).
  assert (2 ^ 52 * P = 2 ^ L) as HPL
    by (unfold P; rewrite <- Z.pow_add_r by lia; f_equal; lia).
  assert (2 ^ 1024 ≤ 2 ^ L) by (apply Z.pow_le_mono_r; lia).
  assert (2 ^ 52 ≤ Z.pos n / (Z.pos d * P)) as Hdiv
    by (apply Z.div_le_lower_bound; nia).
  pose proof (round_half_even_ge (Z.pos n) (Z.pos d * P)) as Hm.
  destruct (Z.leb_spec (2 ^ 1024)
              (round_half_even (Z.pos n) (Z.pos d * P) * P)); [done|].
  nia.
Qed.

(** ** Conversion of an integer to float *)

Lemma float_of_int_exact (z : Z) :
  Z.abs z < 2 ^ 53 → float_of_int z = Returns (inject_Z z).
Proof.
  intros Hz. unfold float_of_int.
  rewrite b64_round_int_exact by lia.
  destruct (Z.ltb_spec z 0); f_equal.
  - unfold Qopp, inject_Z. simpl. f_equal. lia.
  - f_equal. lia.
Qed.

Lemma round_half_even_top (n d M : Z) :
  0 < d → Z.even M = true →
  (M ≤ round_half_even n d ↔ (2 * M - 1) * d ≤ 2 * n).
Proof.
  intros Hd HM. unfold round_half_even.
  pose proof (Z.div_mod n d ltac:(lia)) as Hn.
  pose proof (Z.mod_pos_bound n d Hd) as Hr.
  set (q := n / d) in *. set (r := n mod d) in *.
  assert (q = M - 1 → Z.even q = false) as Hodd.
  { intros ->. replace (M - 1) with (Z.pred M) by lia.
    by rewrite Z.even_pred, <- Z.negb_even, HM. }
  destruct (Z.compare_spec (2 * r) d) as [Heq|Hlt|Hgt].
  - destruct (Z.even q) eqn:Hq.
    + assert (q ≠ M - 1) by (intros Hc; apply Hodd in Hc; congruence). nia.
    + nia.
  - nia.
  - nia.
Qed.

Lemma b64_round_int_Inf (z : Z) :
  0 < z → (b64_round (inject_Z z) = Inf ↔ float_limit ≤ z).
Proof.
  intros Hz. unfold float_limit.
  assert (2 ^ 1024 = 2 ^ 53 * 2 ^ 971) as H1024 by (by rewrite <- Z.pow_add_r).
  assert (2 ^ 971 = 2 * 2 ^ 970) as H971
    by (by change 971 with (1 + 970); rewrite Z.pow_add_r).
  assert (2 ^ 1023 = 2 ^ 52 * 2 ^ 971) as H1023 by (by rewrite <- Z.pow_add_r).
  assert (0 < 2 ^ 970) as H970 by (by apply Z.pow_pos_nonneg).
  assert (2 ^ 53 = 2 * 2 ^ 52) as H53 by done.
  assert (0 < 2 ^ 52) as H52 by done.
  destruct (Z.lt_ge_cases z (2 ^ 1023)) as [Hlo|Hlo].
  { destruct (b64_round_finite (inject_Z z) 1023) as (y & -> & _);
      [lia|unfold Qle; simpl; lia|by rewrite <- Zlt_Qlt|].
    split; [done|]. nia. }
  destruct (Z.lt_ge_cases z (2 ^ 1024)) as [Hhi|Hhi].
  2:{ split; [lia|]. intros _. apply b64_round_Inf. by rewrite <- Zle_Qle. }
  destruct z as [|n|n]; [lia| |lia].
  unfold b64_round, inject_Z. cbn [Qnum Qden]. cbv zeta. rewrite ilog2_int.
  assert (Z.log2 (Z.pos n) = 1023) as ->.
  { apply Z.log2_unique; [lia|]. split; [done|]. by change (1023 + 1) with 1024. }
  change (Z.max (1023 - 52) (-1074)) with 971.
  change (Z.max 0 (- 971)) with 0. change (Z.max 0 971) with 971.
  change (2 ^ 0) with 1. rewrite Z.mul_1_r, Z.mul_1_l.
  set (d := 2 ^ 971) in *.
  assert (0 < d) as Hd by lia.
  pose proof (round_half_even_top (Z.pos n) d (2 ^ 53) Hd eq_refl) as Htop.
  set (m := round_half_even (Z.pos n) d) in *.
  destruct (Z.leb_spec (2 ^ 1024) (m * d)) as [Hbig|Hsmall].
  - split; [intros _|done]. assert (2 ^ 53 ≤ m) as Hm by nia.
    apply Htop in Hm. nia.
  - split; [done|]. intros Hz'.
    assert (2 ^ 53 ≤ m) as Hm by (apply Htop; nia). nia.
Qed.

Lemma float_of_int_raises (z : Z) (e : exn) :
  float_of_int z = Raises e ↔ e = OverflowError ∧ float_limit ≤ Z.abs z.
Proof.
  unfold float_of_int. destruct (Z.eq_dec z 0) as [->|Hz].
  - split; [done|]. intros [_ Hlim]. by vm_compute in Hlim.
  - pose proof (b64_round_int_Inf (Z.abs z) ltac:(lia)) as Hinf.
    destruct (b64_round (inject_Z (Z.abs z))) as [q|].
    + split; [done|]. intros [_ Hlim]. by apply Hinf in Hlim.
    + split; [intros [= <-]; split; [done|by apply Hinf]|by intros [-> _]].
Qed.

Lemma median_float_odd (x : list Z) (m : Z) :
  (length x mod 2 = 1)%nat →
  sorted x !! (length x / 2)%nat = Some m →
  median_float x = Returns (inject_Z m).
Proof.
  intros Hodd Hm. unfold median_float.
  by rewrite of_nat_parity, Hodd, of_nat_half, (py_index_nat _ _ _ Hm).
Qed.

Lemma median_float_even (x : list Z) (a b : Z) :
  x ≠ [] → (length x mod 2 = 0)%nat →
  sorted x !! (length x / 2)%nat = Some a →
  sorted x !! (length x / 2 - 1)%nat = Some b →
  median_float x = (s ← float_of_int (a + b); Returns (s / 2)%Q).
Proof.
  intros Hne Heven Ha Hb. unfold median_float.
  assert (length x ≠ 0%nat) as Hlen by (by destruct x).
  pose proof (even_half_pos _ Hlen Heven).
  rewrite of_nat_parity, Heven, of_nat_half.
  replace (Z.of_nat (length x / 2) - 1) with (Z.of_nat (length x / 2 - 1))
    by lia.
  by rewrite (py_index_nat _ _ _ Ha), (py_index_nat _ _ _ Hb).
Qed.

(** The two central places of a non-empty list. *)
Lemma central_places (x : list Z) :
  x ≠ [] →
  ∃ a b, sorted x !! (length x / 2 - 1)%nat = Some a ∧
         sorted x !! (length x / 2)%nat = Some b.
Proof.
  intros Hne. assert (length x ≠ 0%nat) as Hlen by (by destruct x).
  pose proof (half_lt _ Hlen).
  destruct (lookup_lt_is_Some_2 (sorted x) (length x / 2)%nat) as [b Hb];
    [by rewrite length_sorted|].
  destruct (lookup_lt_is_Some_2 (sorted x) (length x / 2 - 1)%nat) as [a Ha];
    [rewrite length_sorted; lia|].
  eauto.
Qed.

Lemma parity_cases (n : nat) : (n mod 2 = 1)%nat ∨ (n mod 2 = 0)%nat.
Proof. pose proof (Nat.mod_upper_bound n 2 ltac:(lia)). lia. Qed.

(** Where the sums of two values stay below 2^53 the float division is
    exact and [median_float] is the median in exact arithmetic. *)
Lemma median_float_exact (x : list Z) :
  (∀ a, a ∈ x → Z.abs a < 2 ^ 52) → median_float x = median x.
Proof.
  intros Hx. destruct x as [|x0 x]; [reflexivity|].
  assert (x0 :: x ≠ []) as Hne by done.
  destruct (central_places (x0 :: x) Hne) as (a & b & Ha & Hb).
  destruct (parity_cases (length (x0 :: x))) as [Hodd|Heven].
  - by rewrite (median_float_odd _ _ Hodd Hb), (median_odd _ _ Hodd Hb).
  - rewrite (median_float_even _ _ _ Hne Heven Hb Ha).
    rewrite (median_even _ _ _ Hne Heven Hb Ha).
    assert (Z.abs a < 2 ^ 52 ∧ Z.abs b < 2 ^ 52) as [Ha' Hb'].
    { split; apply Hx; eapply sorted_elem_of; eauto. }
    rewrite float_of_int_exact; [done|].
    change (2 ^ 53) with (2 ^ 52 + 2 ^ 52). lia.
Qed.

(** C5: for a non-empty list [x], with [s] the list [x] in ascending order,
    the median is the middle element of [s] when the length is odd; when it
    is even and the sum of the two central elements of [s] is below 2^53 in
    absolute value, the median is their arithmetic mean. *)
Theorem median_standard (x s : list Z) :
  x ≠ [] → Sorted Z.le s → s ≡ₚ x →
  ((length x mod 2 = 1)%nat →
     ∃ m, s !! (length x / 2)%nat = Some m ∧
          median_float x = Returns (inject_Z m)) ∧
  ((length x mod 2 = 0)%nat →
     ∃ a b, s !! (length x / 2 - 1)%nat = Some a ∧
            s !! (length x / 2)%nat = Some b ∧
            (Z.abs (a + b) < 2 ^ 53 →
             ∃ v, median_float x = Returns v ∧
                  (v == (inject_Z a + inject_Z b) / 2)%Q)).
Proof.
  intros Hne Hs Hp.
  assert (s = sorted x) as ->.
  { apply (Sorted_unique Z.le); [done|apply Sorted_merge_sort; apply _|].
    unfold sorted. by rewrite merge_sort_Permutation. }
  destruct (central_places x Hne) as (a & b & Ha & Hb).
  split; intros Hpar.
  - exists b. split; [done|]. by apply median_float_odd.
  - exists a, b. split; [done|]. split; [done|]. intros Hsum.
    rewrite (median_float_even _ _ _ Hne Hpar Hb Ha).
    rewrite float_of_int_exact by lia. eexists. split; [done|].
    rewrite inject_Z_plus, (Qplus_comm (inject_Z b)). reflexivity.
Qed.

Lemma median_standard_witness :
  [5; 1; 3; 2] ≠ [] ∧ Sorted Z.le [1; 2; 3; 5] ∧ [1; 2; 3; 5] ≡ₚ [5; 1; 3; 2] ∧
  ((length [5; 1; 3; 2] mod 2 = 1)%nat →
     ∃ m, [1; 2; 3; 5] !! (length [5; 1; 3; 2] / 2)%nat = Some m ∧
          median_float [5; 1; 3; 2] = Returns (inject_Z m)) ∧
  ((length [5; 1; 3; 2] mod 2 = 0)%nat →
     ∃ a b, [1; 2; 3; 5] !! (length [5; 1; 3; 2] / 2 - 1)%nat = Some a ∧
            [1; 2; 3; 5] !! (length [5; 1; 3; 2] / 2)%nat = Some b ∧
            (Z.abs (a + b) < 2 ^ 53 →
             ∃ v, median_float [5; 1; 3; 2] = Returns v ∧
                  (v == (inject_Z a + inject_Z b) / 2)%Q)).
Proof.
  assert (Hne : [5; 1; 3; 2] ≠ @nil Z) by discriminate.
  assert (Hs : Sorted Z.le [1; 2; 3; 5]) by (repeat constructor; lia).
  assert (Hp : [1; 2; 3; 5] ≡ₚ [5; 1; 3; 2]).
  { change [1; 2; 3; 5] with (sorted [5; 1; 3; 2]).
    apply merge_sort_Permutation. }
  exact (conj Hne (conj Hs (conj Hp (median_standard _ _ Hne Hs Hp)))).
Defined.

(** C5 fails from 2^53 on: the sum of the two central values is converted
    to binary64 before it is halved.  For two values of 2^53 + 1 the sum
    2^54 + 2 rounds to 2^54, and the median is 2^53, not their mean. *)
Lemma median_rounds_large_mean :
  ∃ v, median_float [9007199254740993; 9007199254740993] = Returns v ∧
       (v == inject_Z 9007199254740992)%Q ∧
       ¬ (v == (inject_Z 9007199254740993 + inject_Z 9007199254740993) / 2)%Q.
Proof.
  eexists. split; [vm_compute; reflexivity|]. split; [reflexivity|].
  intros Heq. vm_compute in Heq. discriminate Heq.
Qed.

(** ** The median and the matcher within the range of floats *)

Lemma median_exact_between (x : list Z) (lo hi : Z) :
  minimum_of lo x → maximum_of hi x →
  ∃ v, median x = Returns v ∧ (inject_Z lo <= v)%Q ∧ (v <= inject_Z hi)%Q.
Proof.
  intros [Hlo Hmin] [Hhi Hmax].
  assert (x ≠ []) as Hne by (intros ->; by apply elem_of_nil in Hlo).
  destruct (central_places x Hne) as (b & a & Hb & Ha).
  pose proof (sorted_elem_of _ _ _ Ha) as Hain.
  pose proof (sorted_elem_of _ _ _ Hb) as Hbin.
  pose proof (Hmin _ Hain). pose proof (Hmax _ Hain).
  pose proof (Hmin _ Hbin). pose proof (Hmax _ Hbin).
  destruct (parity_cases (length x)) as [Hodd|Heven].
  - exists (inject_Z a). split; [by apply median_odd|].
    rewrite <- !Zle_Qle. lia.
  - exists (inject_Z (a + b) / 2)%Q.
    split; [by apply median_even|].
    split.
    + apply Qle_shift_div_l; [done|]. unfold Qle. simpl. lia.
    + apply Qle_shift_div_r; [done|]. unfold Qle. simpl. lia.
Qed.

(** X2: the median of a list whose least and greatest value lie within
    2^52 of zero exists and lies between the two. *)
Theorem median_between (x : list Z) (lo hi : Z) :
  minimum_of lo x → maximum_of hi x → - 2 ^ 52 < lo → hi < 2 ^ 52 →
  ∃ v, median_float x = Returns v ∧
       (inject_Z lo <= v)%Q ∧ (v <= inject_Z hi)%Q.
Proof.
  intros Hlo Hhi Hlo' Hhi'. rewrite median_float_exact.
  - by apply median_exact_between.
  - intros a Ha. pose proof (proj2 Hlo a Ha). pose proof (proj2 Hhi a Ha). lia.
Qed.

(** X20: when the median raises.  On the empty list it is [IndexError];
    on a list of even length whose two central values add up to
    [2^1024 - 2^970] or more in absolute value, where the sum has no float,
    it is [OverflowError]; and it raises in no other case. *)
Theorem median_raises (x : list Z) (e : exn) :
  median_float x = Raises e ↔
  (x = [] ∧ e = IndexError) ∨
  (e = OverflowError ∧ (length x mod 2 = 0)%nat ∧
   ∃ a b, sorted x !! (length x / 2 - 1)%nat = Some a ∧
          sorted x !! (length x / 2)%nat = Some b ∧
          float_limit ≤ Z.abs (a + b)).
Proof.
  destruct (decide (x = [])) as [->|Hne].
  - split; [intros [= <-]; by left|].
    intros [[_ ->]|(_ & _ & a & b & Ha & _)]; done.
  - destruct (central_places _ Hne) as (a & b & Ha & Hb).
    destruct (parity_cases (length x)) as [Hodd|Heven].
    + rewrite (median_float_odd _ _ Hodd Hb). split; [done|].
      intros [[? _]|(_ & Heven & _)]; [done|]. rewrite Hodd in Heven. done.
    + rewrite (median_float_even _ _ _ Hne Heven Hb Ha).
      pose proof (float_of_int_raises (b + a) e) as Hraise.
      replace (b + a) with (a + b) in * by lia.
      destruct (float_of_int (a + b)) as [s|e'] eqn:Hs.
      * split; [intros Hr; by simpl in Hr|].
        intros [[? _]|(-> & _ & a' & b' & Ha' & Hb' & Hlim)]; [done|].
        assert (a' = a ∧ b' = b) as [-> ->] by (split; congruence).
        assert (@Returns Q s = Raises OverflowError) as Hc
          by (by apply Hraise).
        discriminate Hc.
      * split.
        -- intros Hr. simpl in Hr. injection Hr as ->.
           destruct (proj1 Hraise eq_refl) as [-> Hlim].
           right. split; [done|]. split; [done|]. by exists a, b.
        -- intros [[? _]|(-> & _ & a' & b' & Ha' & Hb' & Hlim)]; [done|].
           assert (a' = a ∧ b' = b) as [-> ->] by (split; congruence).
           assert (@Raises Q e' = Raises OverflowError) as Hc
             by (by apply Hraise).
           by injection Hc as ->.
Qed.

Lemma float_of_int_returns (z : Z) :
  Z.abs z < float_limit → ∃ q, float_of_int z = Returns q.
Proof.
  intros Hz. destruct (float_of_int z) as [q|e] eqn:Hq; [by exists q|].
  apply float_of_int_raises in Hq as [_ Hlim]. lia.
Qed.

Lemma float_limit_above : 2 * 2 ^ 1022 < float_limit.
Proof. reflexivity. Qed.

Lemma median_float_returns (x : list Z) :
  x ≠ [] → (∀ a, a ∈ x → Z.abs a < 2 ^ 1022) →
  ∃ v, median_float x = Returns v.
Proof.
  intros Hne Hx. destruct (central_places x Hne) as (a & b & Ha & Hb).
  destruct (parity_cases (length x)) as [Hodd|Heven].
  - rewrite (median_float_odd _ _ Hodd Hb). by eexists.
  - rewrite (median_float_even _ _ _ Hne Heven Hb Ha).
    pose proof (Hx a (sorted_elem_of _ _ _ Ha)).
    pose proof (Hx b (sorted_elem_of _ _ _ Hb)).
    pose proof float_limit_above.
    destruct (float_of_int_returns (b + a)) as [q ->]; [lia|by eexists].
Qed.

(** X4: with lengths below 2^1022 and a tolerance below [float_limit] in
    absolute value, [test_netclass] raises exactly when the list of nets is
    empty.  The bounds are what keeps the floats of the function in range:
    the conversions of the tolerance, of the variance and of each length
    for printing succeed, and so does the median. *)
Theorem test_netclass_raises_iff_empty (netclass : string) (tolerance : Z)
    (nets : list (string * Z)) :
  Z.abs tolerance < float_limit →
  (∀ net, net ∈ nets → Z.abs net.2 < 2 ^ 1022) →
  ((∃ e, (test_netclass netclass tolerance nets).2 = Raises e) ↔ nets = []) ∧
  (∃ t, float_of_int tolerance = Returns t) ∧
  (∀ lo hi, minimum_of lo nets.*2 → maximum_of hi nets.*2 →
            ∃ d, float_of_int (hi - lo) = Returns d) ∧
  (∀ net, net ∈ nets → ∃ l, float_of_int net.2 = Returns l) ∧
  (nets ≠ [] → ∃ m, median_float nets.*2 = Returns m).
Proof.
  intros Htol Hnets. pose proof float_limit_above as Hlim.
  assert (∀ a, a ∈ nets.*2 → Z.abs a < 2 ^ 1022) as Hlens.
  { intros a (net & -> & Hin)%list_elem_of_fmap. by apply Hnets. }
  split; [|split; [|split; [|split]]].
  - split.
    + intros [e He]. destruct nets as [|n nets]; [done|].
      destruct (test_netclass_nonempty netclass tolerance (n :: nets))
        as (c & v & t & d & f & meets & Htest & _); [done|].
      rewrite Htest in He. done.
    + intros ->. by exists ValueError.
  - by apply float_of_int_returns.
  - intros lo hi [Hlo _] [Hhi _]. apply float_of_int_returns.
    apply Hlens in Hlo, Hhi. lia.
  - intros net Hin. apply float_of_int_returns.
    pose proof (Hnets net Hin). lia.
  - intros Hne. apply median_float_returns; [|done].
    by intros ?%fmap_nil_inv.
Qed.

Lemma test_netclass_raises_iff_empty_witness :
  Z.abs 100000 < float_limit ∧
  (∀ net, net ∈ [("A", 5000000); ("B", 5300000)] → Z.abs net.2 < 2 ^ 1022) ∧
  ((∃ e, (test_netclass "CLK_LM0.1" 100000
            [("A", 5000000); ("B", 5300000)]).2 = Raises e) ↔
   [("A", 5000000); ("B", 5300000)] = []) ∧
  (∃ t, float_of_int 100000 = Returns t) ∧
  (∀ lo hi, minimum_of lo [("A", 5000000); ("B", 5300000)].*2 →
            maximum_of hi [("A", 5000000); ("B", 5300000)].*2 →
            ∃ d, float_of_int (hi - lo) = Returns d) ∧
  (∀ net, net ∈ [("A", 5000000); ("B", 5300000)] →
          ∃ l, float_of_int net.2 = Returns l) ∧
  ([("A", 5000000); ("B", 5300000)] ≠ [] →
   ∃ m, median_float [("A", 5000000); ("B", 5300000)].*2 = Returns m).
Proof.
  assert (H1 : Z.abs 100000 < float_limit) by reflexivity.
  assert (H2 : ∀ net : string * Z,
            net ∈ [("A", 5000000); ("B", 5300000)] → Z.abs net.2 < 2 ^ 1022).
  { intros net Hin.
    repeat (apply elem_of_cons in Hin as [->|Hin]; [reflexivity|]).
    by apply elem_of_nil in Hin. }
  exact (conj H1 (conj H2
           (test_netclass_raises_iff_empty "CLK_LM0.1" _ _ H1 H2))).
Defined.

(** X6: what a test prints, for lengths within 2^52 of zero and a
    tolerance below [float_limit].  One summary line for the netclass,
    green with "MEETS" when the call returns [True] and red with "FAILS"
    when it returns [False]; then one line per net, in ascending order of
    net name, marked "+" exactly when the net is longer than the median.
    The numbers on the lines are floats handed to ["%.2f"] and are left
    open here. *)
Theorem test_netclass_report (netclass : string) (tolerance : Z)
    (nets : list (string * Z)) (lo hi : Z) :
  minimum_of lo nets.*2 → maximum_of hi nets.*2 →
  - 2 ^ 52 < lo → hi < 2 ^ 52 → Z.abs tolerance < float_limit →
  ∃ ordered c v t d rows meets medlen,
    Sorted net_le ordered ∧ ordered ≡ₚ nets ∧
    test_netclass netclass tolerance nets
      = (ordered, summary_line c netclass v t d :: rows, Returns meets) ∧
    (c, v) = (if meets then (BRIGHTGREEN, "MEETS") else (BRIGHTRED, "FAILS")) ∧
    median_float nets.*2 = Returns medlen ∧
    length rows = length nets ∧
    ∀ i net netlen,
      ordered !! i = Some (net, netlen) →
      ∃ len deviation,
        rows !! i = Some (net_line net len
                            (if bool_decide (medlen < inject_Z netlen)%Q
                             then "+" else "")
                            deviation).
Proof.
  intros Hlo Hhi Hlo' Hhi' _.
  destruct (test_netclass_spec netclass tolerance nets lo hi Hlo Hhi)
    as (medlen & Hmed & Htest).
  eexists (merge_sort net_le nets), _, _, _, _, _, _, medlen.
  split; [apply Sorted_merge_sort; apply _|].
  split; [apply merge_sort_Permutation|].
  split; [exact Htest|].
  split; [by destruct (bool_decide _)|]. split.
  { rewrite median_float_exact; [done|]. intros a Ha.
    pose proof (proj2 Hlo a Ha). pose proof (proj2 Hhi a Ha). lia. }
  split; [by rewrite length_fmap, merge_sort_Permutation|].
  intros i net netlen Hi. eexists _, _. by rewrite list_lookup_fmap, Hi.
Qed.

Lemma test_netclass_report_witness :
  minimum_of 5000000 [("B", 5300000); ("A", 5000000)].*2 ∧
  maximum_of 5300000 [("B", 5300000); ("A", 5000000)].*2 ∧
  - 2 ^ 52 < 5000000 ∧ 5300000 < 2 ^ 52 ∧ Z.abs 100000 < float_limit ∧
  ∃ ordered c v t d rows meets medlen,
    Sorted net_le ordered ∧ ordered ≡ₚ [("B", 5300000); ("A", 5000000)] ∧
    test_netclass "CLK_LM0.1" 100000 [("B", 5300000); ("A", 5000000)]
      = (ordered, summary_line c "CLK_LM0.1" v t d :: rows, Returns meets) ∧
    (c, v) = (if meets then (BRIGHTGREEN, "MEETS") else (BRIGHTRED, "FAILS")) ∧
    median_float [("B", 5300000); ("A", 5000000)].*2 = Returns medlen ∧
    length rows = length [("B", 5300000); ("A", 5000000)] ∧
    ∀ i net netlen,
      ordered !! i = Some (net, netlen) →
      ∃ len deviation,
        rows !! i = Some (net_line net len
                            (if bool_decide (medlen < inject_Z netlen)%Q
                             then "+" else "")
                            deviation).
Proof.
  assert (Hlo : minimum_of 5000000 [("B", 5300000); ("A", 5000000)].*2)
    by (simpl; extremum).
  assert (Hhi : maximum_of 5300000 [("B", 5300000); ("A", 5000000)].*2)
    by (simpl; extremum).
  assert (H3 : - 2 ^ 52 < 5000000) by reflexivity.
  assert (H4 : 5300000 < 2 ^ 52) by reflexivity.
  assert (H5 : Z.abs 100000 < float_limit) by reflexivity.
  exact (conj Hlo (conj Hhi (conj H3 (conj H4 (conj H5
           (test_netclass_report "CLK_LM0.1" 100000 _ _ _
              Hlo Hhi H3 H4 H5)))))).
Defined.

Lemma median_between_witness :
  minimum_of 1 [5; 1; 3; 2] ∧ maximum_of 5 [5; 1; 3; 2] ∧
  - 2 ^ 52 < 1 ∧ 5 < 2 ^ 52 ∧
  ∃ v, median_float [5; 1; 3; 2] = Returns v ∧
       (inject_Z 1 <= v)%Q ∧ (v <= inject_Z 5)%Q.
Proof.
  assert (Hlo : minimum_of 1 [5; 1; 3; 2]) by extremum.
  assert (Hhi : maximum_of 5 [5; 1; 3; 2]) by extremum.
  assert (H3 : - 2 ^ 52 < 1) by reflexivity.
  assert (H4 : 5 < 2 ^ 52) by reflexivity.
  exact (conj Hlo (conj Hhi (conj H3 (conj H4
           (median_between _ _ _ Hlo Hhi H3 H4))))).
Defined.

(** ** The tolerance parser and the range of floats *)

Lemma decimal_value_nonneg (i f : list ascii) :
  forallb is_digit (i ++ f) = true → (0 <= decimal_value i f)%Q.
Proof.
  intros Hd. unfold decimal_value, Qle. simpl. rewrite Z.mul_1_r.
  by apply digits_value_nonneg.
Qed.

(** A decimal number below 2^1003 has a tolerance: neither [float] nor the
    product with [1e6] leaves the range of binary64. *)
Lemma decimal_tolerance_returns (i f : list ascii) :
  forallb is_digit (i ++ f) = true →
  (decimal_value i f < inject_Z (2 ^ 1003))%Q →
  ∃ tol, mm_to_nm (b64_round (decimal_value i f)) = Returns tol.
Proof.
  intros Hd Hv. pose proof (decimal_value_nonneg i f Hd) as Hv0.
  destruct (b64_round_finite _ 1003 ltac:(lia) Hv0 Hv) as (x & -> & Hx0 & Hx).
  unfold mm_to_nm, b64_mul.
  destruct (b64_round_finite (x * (1000000 # 1)) 1023) as (y & -> & _);
    [lia| | |by eexists].
  - change (1000000 # 1) with 1000000%Q. lra.
  - assert (inject_Z (2 ^ 1003) * 1000000 < inject_Z (2 ^ 1023))%Q as Hpow.
    { change 1000000%Q with (inject_Z 1000000).
      rewrite <- inject_Z_mult, <- Zlt_Qlt.
      change (2 ^ 1023) with (2 ^ 1003 * 2 ^ 20).
      apply Z.mul_lt_mono_pos_l; [by apply Z.pow_pos_nonneg|reflexivity]. }
    change (1000000 # 1) with 1000000%Q. lra.
Qed.

(** ** Which labels carry a tolerance, and which overflow *)

(** C6, as the code has it.  [get_tolerance] returns [None] exactly for the
    labels without a marker followed by a run of digits and periods in
    boundary position (the end of the label may be a final newline), so a
    label with a well-formed marker never yields [None].  The leftmost
    marker decides the rest.  When its run is a decimal number, a tolerance
    is returned if the number is below 2^1003, [OverflowError] is raised if
    it is 2^1024 or more, where [float] gives infinity, and in between it
    is one or the other; when the run is not a decimal number,
    [ValueError] is raised.  Whenever a tolerance is returned the label
    holds a marker with a decimal number.  A netclass for which
    [get_tolerance] is [None], such as "MISC", has no entry in the mapping
    of [get_board_properties]. *)
Theorem get_tolerance_marker :
  (∀ label, get_tolerance label = Returns None ↔ ¬ marker_shaped label) ∧
  (∀ label, has_marker label → get_tolerance label ≠ Returns None) ∧
  (∀ label pre run post,
     first_marker label pre run post →
     (decimal_number run →
        ∃ i f,
          decimal_parts run = Some (i, f) ∧
          ((decimal_value i f < inject_Z (2 ^ 1003))%Q →
           ∃ tol, get_tolerance label = Returns (Some tol)) ∧
          ((inject_Z (2 ^ 1024) <= decimal_value i f)%Q →
           get_tolerance label = Raises OverflowError) ∧
          ((∃ tol, get_tolerance label = Returns (Some tol)) ∨
           get_tolerance label = Raises OverflowError)) ∧
     (¬ decimal_number run → get_tolerance label = Raises ValueError)) ∧
  (∀ label tol,
     get_tolerance label = Returns (Some tol) →
     ∃ pre d post,
       list_ascii_of_string label = pre ++ LM ++ d ++ post ∧
       left_bound pre ∧ right_bound_nl post ∧ decimal_number d) ∧
  (∀ tracks props netclass,
     get_board_properties tracks = Returns props →
     get_tolerance netclass = Returns None →
     props !! netclass = None) ∧
  get_tolerance "MISC" = Returns None.
Proof.
  split; [|split; [|split; [|split; [|split]]]].
  - intros label. by rewrite get_tolerance_None, search_LM_None.
  - intros label Hm. rewrite get_tolerance_None, search_LM_None.
    intros Hno. by apply Hno, has_marker_shaped.
  - intros label pre run post Hfirst.
    rewrite (get_tolerance_first_marker _ _ _ _ Hfirst). split.
    + intros (i & f & Hparts)%decimal_number_parts.
      exists i, f. split; [done|].
      unfold py_float. rewrite Hparts. simpl.
      split; [|split].
      * intros Hv.
        destruct (decimal_tolerance_returns i f) as [tol ->];
          [by eapply decimal_parts_digits|done|by eexists].
      * intros Hv. by rewrite (b64_round_Inf _ Hv).
      * unfold mm_to_nm. destruct (b64_mul _ _) as [q|]; simpl; eauto.
    + intros Hbad. by rewrite (py_float_malformed _ Hbad).
  - intros label tol. unfold get_tolerance.
    destruct (Re.search LM_pattern label) as [m|] eqn:Hm; [|done].
    destruct (search_LM_Some _ _ Hm) as (pre & post & Hlabel & Hl & Hr & _).
    unfold py_float.
    destruct (decimal_parts (Re.group m 2)) as [[i f]|] eqn:Hparts; [|done].
    intros _. exists pre, (Re.group m 2), post.
    repeat (split; [done|]). by eapply decimal_parts_Some.
  - intros tracks props netclass Hprops Hnone.
    destruct (props !! netclass) as [v|] eqn:Hv; [|done].
    apply (get_board_properties_lookup _ _ _ _ Hprops) in Hv
      as [_ (tol & Htol & _)].
    congruence.
  - vm_compute. reflexivity.
Qed.

Lemma no_marker_in_BUS_LM1_2_3 : ¬ has_marker "BUS_LM1.2.3".
Proof.
  intros (pre & d & post & Hl & _ & Hr & (_ & Hperiods & _)).
  cbn [list_ascii_of_string] in Hl. unfold LM in Hl.
  peel Hl pre. injection Hl as Hd.
  destruct Hr as [->|[p ->]].
  - rewrite app_nil_r in Hd. subst d. vm_compute in Hperiods. lia.
  - assert ("_"%char ∈ list_ascii_of_string "1.2.3") as Hin.
    { cbn [list_ascii_of_string]. rewrite Hd. apply elem_of_app. right. by left. }
    vm_compute in Hin.
    repeat (apply elem_of_cons in Hin as [Hin|Hin]; [discriminate|]).
    by apply elem_of_nil in Hin.
Qed.

(** C6 fails on "LM1.2.3_LM5": the label ends with a well-formed marker,
    but the pattern matches at the first one and [float] rejects its text,
    so no tolerance is returned.  It fails on "BUS_LM1.2.3" too: the label
    has no marker followed by a decimal number, and yet the result is not
    [None]. *)
Lemma marker_after_malformed_marker :
  (has_marker "LM1.2.3_LM5" ∧
   get_tolerance "LM1.2.3_LM5" = Raises ValueError ∧
   ¬ ∃ tol, get_tolerance "LM1.2.3_LM5" = Returns (Some tol)) ∧
  (¬ has_marker "BUS_LM1.2.3" ∧
   get_tolerance "BUS_LM1.2.3" = Raises ValueError ∧
   get_tolerance "BUS_LM1.2.3" ≠ Returns None).
Proof.
  assert (Hraise : get_tolerance "LM1.2.3_LM5" = Raises ValueError)
    by (vm_compute; reflexivity).
  assert (Hraise' : get_tolerance "BUS_LM1.2.3" = Raises ValueError)
    by (vm_compute; reflexivity).
  split; [split; [|split; [done|]]|split; [|split; [done|]]].
  - exists (list_ascii_of_string "LM1.2.3_"), (list_ascii_of_string "5"), [].
    split; [done|]. split.
    { right. by exists (list_ascii_of_string "LM1.2.3"). }
    split; [by left|].
    split; [|split].
    + constructor; [by left|constructor].
    + vm_compute. lia.
    + by left.
  - intros [tol Htol]. congruence.
  - apply no_marker_in_BUS_LM1_2_3.
  - congruence.
Qed.

(** ** Turns of the loop that fail *)

Lemma evaluate_loaded (once : bool) (tracks : list track)
    (props oldprops : gmap string (Z * list (string * Z))) :
  get_board_properties tracks = Returns props →
  ∃ allmatches,
    evaluate once tracks oldprops
    = (flat_map report (filter (changed oldprops) (map_to_list props)),
       if once then Exit (negb allmatches) else WaitForChange props).
Proof.
  intros Hprops. unfold evaluate. rewrite Hprops.
  destruct (evaluate_items_spec oldprops props (map_to_list props) true)
    as [b ->]; [|exists b; by destruct once].
  intros [netclass [tolerance nets]] Hin%elem_of_map_to_list. simpl.
  split; [done|]. by eapply get_board_properties_entry.
Qed.

Lemma total_length_range (netclass net : string) (tracks : list track) :
  (∀ t, t ∈ tracks → 0 ≤ GetLength t) →
  0 ≤ total_length netclass net tracks ≤ sum (GetLength <$> tracks).
Proof.
  induction tracks as [|t tracks IH]; intros Hpos; [done|].
  rewrite fmap_cons, sum_cons. simpl.
  pose proof (Hpos t ltac:(by left)).
  pose proof (IH ltac:(intros t' Ht'; apply Hpos; by right)).
  destruct (decide _); lia.
Qed.

Lemma lengths_in_range_nets (tracks : list track)
    (props : gmap string (Z * list (string * Z))) (netclass : string)
    (tolerance : Z) (nets : list (string * Z)) :
  lengths_in_range tracks →
  get_board_properties tracks = Returns props →
  props !! netclass = Some (tolerance, nets) →
  ∀ net, net ∈ nets → Z.abs net.2 < 2 ^ 1022.
Proof.
  intros [Hpos Hsum] Hprops Hentry [net len] Hin.
  apply (get_board_properties_lookup _ _ _ _ Hprops) in Hentry
    as [_ (tol & _ & Hentry)].
  destruct (netclass_entry_spec tracks netclass tol) as (_ & _ & Hnets).
  rewrite <- Hentry in Hnets. apply Hnets in Hin as [_ ->]. simpl.
  pose proof (total_length_range netclass net tracks Hpos). lia.
Qed.

(** X17: a turn of the loop on a board with lengths in range dies exactly
    when the modification time cannot be read at l.164, or pcbnew fails to
    load the board, or [get_tolerance] rejects the name of a netclass; in
    each case the turn has printed nothing.  Testing the groups of a board
    that loaded is never the cause: the lengths of their nets are below
    2^1022, where [test_netclass] raises on the empty list only. *)
Theorem pass_dies (once : bool) (a : attempt)
    (oldprops : gmap string (Z * list (string * Z))) (out : list line)
    (u : uncaught) :
  (∀ tracks, a = Loaded tracks → lengths_in_range tracks) →
  (pass once a oldprops = (out, Dies u) ↔
   out = [] ∧
   ((a = FileMissing ∧ u = GetmtimeOSError) ∨
    (a = LoadFails ∧ u = LoadBoardError) ∨
    ∃ tracks e, a = Loaded tracks ∧
                get_board_properties tracks = Raises e ∧ u = Raised e)) ∧
  (∀ tracks props netclass tolerance nets,
     a = Loaded tracks →
     get_board_properties tracks = Returns props →
     props !! netclass = Some (tolerance, nets) →
     nets ≠ [] ∧ ∀ net, net ∈ nets → Z.abs net.2 < 2 ^ 1022).
Proof.
  intros Hrange. split.
  2:{ intros tracks props netclass tolerance nets -> Hprops Hentry. split.
      - by eapply get_board_properties_entry.
      - by eapply lengths_in_range_nets; [apply Hrange|..]. }
  destruct a as [| |tracks]; simpl.
  - split.
    + intros [= <- <-]. split; [done|]. by left.
    + intros [-> [[_ ->]|[[? _]|(? & ? & ? & _)]]]; done.
  - split.
    + intros [= <- <-]. split; [done|]. right. by left.
    + intros [-> [[? _]|[[_ ->]|(? & ? & ? & _)]]]; done.
  - destruct (get_board_properties tracks) as [props|e] eqn:Hprops.
    + destruct (evaluate_loaded once tracks props oldprops Hprops) as [b ->].
      split; [by destruct once|].
      intros [_ [[? _]|[[? _]|(t & e & [= <-] & He & _)]]]; congruence.
    + unfold evaluate. rewrite Hprops. split.
      * intros [= <- <-]. split; [done|]. right. right. by exists tracks, e.
      * intros [-> [[? _]|[[? _]|(t & e' & [= <-] & He & ->)]]]; [done..|].
        congruence.
Qed.

Lemma pass_dies_witness :
  (∀ tracks, Loaded [Track "D0" "BUS_LM1.2.3" 5] = Loaded tracks →
     lengths_in_range tracks) ∧
  (pass false (Loaded [Track "D0" "BUS_LM1.2.3" 5]) ∅
     = ([], Dies (Raised ValueError)) ↔
   @nil line = [] ∧
   ((Loaded [Track "D0" "BUS_LM1.2.3" 5] = FileMissing ∧
     Raised ValueError = GetmtimeOSError) ∨
    (Loaded [Track "D0" "BUS_LM1.2.3" 5] = LoadFails ∧
     Raised ValueError = LoadBoardError) ∨
    ∃ tracks e, Loaded [Track "D0" "BUS_LM1.2.3" 5] = Loaded tracks ∧
                get_board_properties tracks = Raises e ∧
                Raised ValueError = Raised e)) ∧
  (∀ tracks props netclass tolerance nets,
     Loaded [Track "D0" "BUS_LM1.2.3" 5] = Loaded tracks →
     get_board_properties tracks = Returns props →
     props !! netclass = Some (tolerance, nets) →
     nets ≠ [] ∧ ∀ net, net ∈ nets → Z.abs net.2 < 2 ^ 1022).
Proof.
  assert (H : ∀ tracks,
            Loaded [Track "D0" "BUS_LM1.2.3" 5] = Loaded tracks →
            lengths_in_range tracks).
  { intros tracks [= <-]. split; [|reflexivity].
    intros t Hin. apply elem_of_cons in Hin as [->|Hin]; [by vm_compute|].
    by apply elem_of_nil in Hin. }
  exact (conj H (pass_dies false _ ∅ [] (Raised ValueError) H)).
Defined.

(** X19: as long as each turn finds the file, loads the board, reads a
    tolerance or none off every netclass name, and the lengths are in
    range, the loop without [--once] gets through every version and then
    waits with the mapping of the latest one as its snapshot. *)
Theorem run_snapshot (attempts : list attempt)
    (oldprops : gmap string (Z * list (string * Z))) :
  (∀ a, a ∈ attempts →
     ∃ tracks props, a = Loaded tracks ∧ lengths_in_range tracks ∧
                     get_board_properties tracks = Returns props) →
  ∃ snapshot,
    (run false attempts oldprops).2 = Waits snapshot ∧
    match last attempts with
    | Some (Loaded tracks) => get_board_properties tracks = Returns snapshot
    | Some _ => False
    | None => snapshot = oldprops
    end.
Proof.
  revert oldprops. induction attempts as [|a later IH]; intros oldprops Hload.
  - by exists oldprops.
  - destruct (Hload a) as (tracks & props & -> & _ & Hprops); [by left|].
    simpl. destruct (evaluate_loaded false tracks props oldprops Hprops)
      as [b ->].
    destruct (IH props) as (snapshot & Hsnap & Hlast).
    { intros t Ht. apply Hload. by right. }
    exists snapshot.
    destruct (run false later props) as [out' n]. simpl in *.
    split; [done|]. destruct later as [|t later'].
    + simpl in Hlast |- *. by subst.
    + rewrite last_cons_cons.
      destruct (last (t :: later')) eqn:Hl; [done|].
      by apply last_None in Hl.
Qed.

Lemma sample_board_in_range : lengths_in_range sample_board.
Proof.
  split; [|reflexivity]. intros t Hin.
  repeat (apply elem_of_cons in Hin as [->|Hin]; [by vm_compute|]).
  by apply elem_of_nil in Hin.
Qed.

Lemma reverse_sample_board_in_range : lengths_in_range (reverse sample_board).
Proof.
  split; [|reflexivity]. intros t Hin. apply elem_of_reverse in Hin.
  by apply sample_board_in_range.
Qed.

Lemma run_snapshot_witness :
  (∀ a, a ∈ [Loaded sample_board; Loaded (reverse sample_board)] →
     ∃ tracks props, a = Loaded tracks ∧ lengths_in_range tracks ∧
                     get_board_properties tracks = Returns props) ∧
  ∃ snapshot,
    (run false [Loaded sample_board; Loaded (reverse sample_board)] ∅).2
      = Waits snapshot ∧
    match last [Loaded sample_board; Loaded (reverse sample_board)] with
    | Some (Loaded tracks) => get_board_properties tracks = Returns snapshot
    | Some _ => False
    | None => snapshot = ∅
    end.
Proof.
  assert (H : ∀ a, a ∈ [Loaded sample_board; Loaded (reverse sample_board)] →
     ∃ tracks props, a = Loaded tracks ∧ lengths_in_range tracks ∧
                     get_board_properties tracks = Returns props).
  { intros a Hin.
    apply elem_of_cons in Hin as [->|Hin].
    { exists sample_board, sample_props.
      split; [done|]. split; [apply sample_board_in_range|].
      vm_compute; reflexivity. }
    apply elem_of_cons in Hin as [->|Hin].
    { exists (reverse sample_board), sample_props.
      split; [done|]. split; [apply reverse_sample_board_in_range|].
      vm_compute; reflexivity. }
    by apply elem_of_nil in Hin. }
  exact (conj H (run_snapshot _ ∅ H)).
Defined.
